(** * genv1.0.py: a Markov-chain MIDI generator

    A shallow embedding of [src/genv1.0.py] and the properties of its
    extraction, model-building, note-selection and generation stages.

    Modelling conventions:
    - Python integers are [Z]; [//] is [Z.div] (both round to minus
      infinity) and [%] on list lengths is [Nat.modulo].
    - A Python [dict] whose iteration order is observed by the program
      ([seqs], the per-pitch transition tables and their [Counter]s) is an
      insertion-ordered association list ([odict]); a [dict] that is only
      read by key or whose values are only counted ([programs], [models],
      [active], [active_until], [last_note], [events_by_ch]) is a [gmap].
    - Python floats are an abstract type with uninterpreted operations
      (class [PyFloat]); nothing is assumed about rounding.
    - The module [random] is an abstract source (class [RandomSource])
      threaded through the code by a state-and-error monad. *)

From Stdlib Require Import ZArith QArith Qround Lia Permutation Sorted Ascii.
From stdpp Require Import gmap list strings fin_maps sorting.

Local Open Scope Z_scope.

(** ** Insertion-ordered dictionaries *)

Section OrderedDict.
Context {K V : Type} `{EqDecision K}.

Definition odict := list (K * V).

(** [d.get(k)] *)
Fixpoint od_get (k : K) (d : odict) : option V :=
  match d with
  | [] => None
  | (k', v) :: d' => if decide (k = k') then Some v else od_get k d'
  end.

(** [d[k] = v]: an existing key keeps its position, a new key goes last. *)
Fixpoint od_set (k : K) (v : V) (d : odict) : odict :=
  match d with
  | [] => [(k, v)]
  | (k', v') :: d' =>
      if decide (k = k') then (k', v) :: d' else (k', v') :: od_set k v d'
  end.

Definition od_keys (d : odict) : list K := map fst d.

End OrderedDict.

Arguments odict : clear implicits.

(** ** Stable sorting ([sorted], [list.sort] with a [key]) *)

Section StableSort.
Context {A : Type} (le : A → A → bool).

Fixpoint insert_sorted (x : A) (l : list A) : list A :=
  match l with
  | [] => [x]
  | y :: l' => if le x y then x :: y :: l' else y :: insert_sorted x l'
  end.

(** Elements that compare equal keep their original relative order. *)
Fixpoint stable_sort (l : list A) : list A :=
  match l with
  | [] => []
  | x :: l' => insert_sorted x (stable_sort l')
  end.
End StableSort.

Definition sort_by_key {A} (key : A → Z) : list A → list A :=
  stable_sort (λ x y, key x <=? key y).

(** ** MIDI messages and files, as [mido] presents them *)

Inductive Msg :=
| note_on (channel note velocity time : Z)
| note_off (channel note velocity time : Z)
| set_tempo (tempo time : Z)
| program_change (channel program time : Z)
| other_msg (time : Z).

Definition msg_time (m : Msg) : Z :=
  match m with
  | note_on _ _ _ t | note_off _ _ _ t | set_tempo _ t
  | program_change _ _ t | other_msg t => t
  end.

Record MidiFile := { ticks_per_beat : Z; tracks : list (list Msg) }.

(** ** [extract_sequences] *)

(** A voice's extracted notes: [(note, dur)] pairs in completion order. *)
Abbreviation NoteSeq := (list (Z * Z)).

Record Extract := {
  seqs : odict Z NoteSeq;
  programs : gmap Z Z;
  ex_tpb : Z;
  tempo : Z;
}.

(** [abs_t += msg.time; events.append((abs_t, msg.copy()))] over one track. *)
Fixpoint abs_events (abs_t : Z) (tr : list Msg) : list (Z * Msg) :=
  match tr with
  | [] => []
  | msg :: tr' =>
      let abs_t := abs_t + msg_time msg in (abs_t, msg) :: abs_events abs_t tr'
  end.

Definition file_events (mid : MidiFile) : list (Z * Msg) :=
  sort_by_key fst (concat (map (abs_events 0) (tracks mid))).

(** [seqs[ch].append(x)] on a [defaultdict(list)]. *)
Definition seqs_append (ch : Z) (x : Z * Z) (s : odict Z NoteSeq) : odict Z NoteSeq :=
  od_set ch (default [] (od_get ch s) ++ [x]) s.

(** The state of the scan of one file: the open notes and the running result. *)
Record Scan := {
  active : gmap Z (gmap Z Z);
  sc_seqs : odict Z NoteSeq;
  sc_programs : gmap Z Z;
  sc_tempo : Z;
}.

(** The [note_off] branch: close a matching open note, if any. *)
Definition note_end (tpb abs_t ch n : Z) (s : Scan) : Scan :=
  match active s !! ch with
  | Some open =>
      match open !! n with
      | Some start =>
          let dur := abs_t - start in
          let dur := if dur <=? 0 then tpb `div` 4 else dur in
          {| active := <[ch := delete n open]> (active s);
             sc_seqs := seqs_append ch (n, dur) (sc_seqs s);
             sc_programs := sc_programs s;
             sc_tempo := sc_tempo s |}
      | None => s
      end
  | None => s
  end.

(** The body of [for abs_t, msg in events]. *)
Definition scan_event (tpb : Z) (s : Scan) (ev : Z * Msg) : Scan :=
  let '(abs_t, msg) := ev in
  match msg with
  | set_tempo t _ =>
      {| active := active s; sc_seqs := sc_seqs s;
         sc_programs := sc_programs s; sc_tempo := t |}
  | program_change ch p _ =>
      {| active := active s; sc_seqs := sc_seqs s;
         sc_programs := <[ch := p]> (sc_programs s); sc_tempo := sc_tempo s |}
  | note_on ch n vel _ =>
      if 0 <? vel then
        {| active := <[ch := <[n := abs_t]> (default ∅ (active s !! ch))]> (active s);
           sc_seqs := sc_seqs s; sc_programs := sc_programs s;
           sc_tempo := sc_tempo s |}
      else if vel =? 0 then note_end tpb abs_t ch n s
      else s
  | note_off ch n _ _ => note_end tpb abs_t ch n s
  | other_msg _ => s
  end.

(** The body of [for mid in mid_files]. *)
Definition extract_file (e : Extract) (mid : MidiFile) : Extract :=
  let tpb := if ticks_per_beat mid =? 0 then ex_tpb e else ticks_per_beat mid in
  let s := fold_left (scan_event tpb) (file_events mid)
             {| active := ∅; sc_seqs := seqs e;
                sc_programs := programs e; sc_tempo := tempo e |} in
  {| seqs := sc_seqs s; programs := sc_programs s; ex_tpb := tpb; tempo := sc_tempo s |}.

Definition extract_init : Extract :=
  {| seqs := []; programs := ∅; ex_tpb := 480; tempo := 500000 |}.

Definition extract_sequences (mid_files : list MidiFile) : Extract :=
  fold_left extract_file mid_files extract_init.

(** ** [build_markov_models] *)

(** Keys of a transition table are the values [last_note.get(ch, None)] can
    take: [None] or a pitch. *)
Abbreviation Counter := (odict Z Z).
Abbreviation Trans := (odict (option Z) Counter).

(** [trans[cur][nxt] += 1] on a [defaultdict(Counter)]. *)
Definition bump (cur nxt : Z) (trans : Trans) : Trans :=
  let c := default [] (od_get (Some cur) trans) in
  od_set (Some cur) (od_set nxt (default 0 (od_get nxt c) + 1) c) trans.

(** [arr[i][0]]; the loop only indexes inside the list. *)
Definition pitch_at (arr : NoteSeq) (i : nat) : Z := default 0 (fst <$> arr !! i).

(** [for i in range(len(arr) - 1): ...] *)
Definition build_trans (arr : NoteSeq) : Trans :=
  fold_left (λ trans i, bump (pitch_at arr i) (pitch_at arr (S i)) trans)
            (seq 0 (length arr - 1)) [].

Definition build_markov_models (s : odict Z NoteSeq) : gmap Z Trans :=
  fold_left (λ models '(ch, arr), <[ch := build_trans arr]> models) s ∅.

Example build_trans_example :
  build_trans [(60, 1); (62, 1); (60, 1); (64, 1)]
  = [(Some 60, [(62, 1); (64, 1)]); (Some 62, [(60, 1)])].
Proof. reflexivity. Qed.

(** ** Python floats and the [random] module *)

(** Floats are kept abstract: the code's float expressions are built from
    these operations and no law of arithmetic is assumed of them. *)
Class PyFloat (F : Type) := {
  f_lit : Q → F;        (** the float a decimal literal denotes *)
  f_int : Z → F;        (** the conversion of an [int] operand *)
  f_add : F → F → F;
  f_mul : F → F → F;
  f_div : F → F → F;
  f_pow : F → F → F;    (** [x ** y] *)
  f_le : F → F → bool;
  f_lt : F → F → bool;
}.

(** The three entry points of [random] the program calls, each a function of
    the generator's hidden state, with the membership guarantees of
    [random.choices] and [random.choice]. *)
Class RandomSource (F G : Type) := {
  rnd_random : G → F * G;
  rnd_choices : list Z → list F → G → Z * G;
  rnd_choice : list Z → G → Z * G;
  rnd_choices_in pop w g : pop ≠ [] → (rnd_choices pop w g).1 ∈ pop;
  rnd_choice_in pop g : pop ≠ [] → (rnd_choice pop g).1 ∈ pop;
}.

(** ** Exceptions and the generator monad *)

Inductive PyError := IndexError | ZeroDivisionError.

Inductive Result (A : Type) :=
| Ok (a : A)
| Raise (e : PyError).
Arguments Ok {A} a.
Arguments Raise {A} e.

(** A computation that draws from the random source and may raise. *)
Definition Gen (G A : Type) : Type := G → Result (A * G).

Definition gret {G A} (a : A) : Gen G A := λ g, Ok (a, g).
Definition graise {G A} (e : PyError) : Gen G A := λ _, Raise e.
Definition gbind {G A B} (m : Gen G A) (k : A → Gen G B) : Gen G B :=
  λ g, match m g with
       | Ok (a, g') => k a g'
       | Raise e => Raise e
       end.
Definition gdraw {G A} (f : G → A * G) : Gen G A := λ g, Ok (f g).

Notation "'let*' x := m 'in' k" := (gbind m (λ x, k))
  (at level 10, x name, m at level 100, k at level 200, only parsing).

(** [l[i]] for [0 <= i]. *)
Definition index {G A} (l : list A) (i : nat) : Gen G A :=
  match l !! i with
  | Some x => gret x
  | None => graise IndexError
  end.

(** [i % n] for a non-negative [i]. *)
Definition pymod {G} (i n : nat) : Gen G nat :=
  if (n =? 0)%nat then graise ZeroDivisionError else gret (i mod n)%nat.

Fixpoint gfold {G A B} (f : A → B → Gen G A) (l : list B) (a : A) : Gen G A :=
  match l with
  | [] => gret a
  | x :: l' => let* a' := f a x in gfold f l' a'
  end.

(** ** Configuration constants *)

Definition MAX_GLOBAL_POLY : Z := 5.
Definition MAX_CHANNELS : Z := 5.
Definition GRID : Z := 240.
Definition BARS : Z := 32.

(** Truth value of a list ([if xs:]). *)
Definition truthy {A} (l : list A) : bool :=
  match l with [] => false | _ :: _ => true end.

Section Generator.
Context {F G : Type} {HF : PyFloat F} {HR : RandomSource F G}.

Definition ONSET_PROB : F := f_lit 0.55.
Definition PREFER_STEP_WEIGHT : F := f_lit 1.2.

(** *** [choose_note] *)

Definition interval_of (note : Z) (prev_note : option Z) : Z :=
  match prev_note with
  | Some p => Z.abs (note - p)
  | None => 0
  end.

Definition lead (note : Z) (prev_note : option Z) : F :=
  let interval := interval_of note prev_note in
  if interval =? 0 then f_lit 1.0
  else f_div (f_lit 1.0)
         (f_add (f_int 1)
            (f_pow (f_div (f_int interval) (f_lit 7.0)) PREFER_STEP_WEIGHT)).

Definition note_weights (candidates : list (Z * Z)) (prev_note : option Z)
  : list (Z * F) :=
  map (λ '(note, cnt), (note, f_mul (f_int cnt) (lead note prev_note))) candidates.

(** [sum(w for _, w in weights)] *)
Definition total_weight (weights : list (Z * F)) : F :=
  fold_left (λ acc nw, f_add acc nw.2) weights (f_int 0).

(** [for n, w in weights: s += w; if r <= s: return n] *)
Fixpoint scan_weights (r s : F) (weights : list (Z * F)) : option Z :=
  match weights with
  | [] => None
  | (n, w) :: weights' =>
      let s := f_add s w in
      if f_le r s then Some n else scan_weights r s weights'
  end.

Definition choose_note (trans_counter : Counter) (prev_note : option Z)
    (fallback_notes : list Z) : Gen G Z :=
  if truthy trans_counter then
    let candidates := trans_counter in
    let weights := note_weights candidates prev_note in
    let total := total_weight weights in
    if f_le total (f_int 0) then
      let* c := index candidates 0 in gret c.1
    else
      let* u := gdraw rnd_random in
      let r := f_mul u total in
      match scan_weights r (f_lit 0.0) weights with
      | Some n => gret n
      | None => let* c := index weights (length weights - 1) in gret c.1
      end
  else if truthy fallback_notes then gdraw (rnd_choice fallback_notes)
  else gret 60.

(** *** [generate_events] *)

Record GenState := {
  events_by_ch : gmap Z (list (Z * Msg));
  active_until : gmap Z Z;
  last_note : gmap Z Z;
}.

Definition gen_init : GenState :=
  {| events_by_ch := ∅; active_until := ∅; last_note := ∅ |}.

Definition select_channels (s : odict Z NoteSeq) : list Z :=
  let channel_activity := sort_by_key (λ kv, - Z.of_nat (length kv.2)) s in
  let channels := (take (Z.to_nat MAX_CHANNELS) channel_activity).*1 in
  if truthy channels then channels else [0; 1; 2; 3].

(** [{ch: [n for n, _ in seqs[ch]] for ch in seqs}] *)
Definition fallback_pools (s : odict Z NoteSeq) : gmap Z (list Z) :=
  fold_left (λ m ch, <[ch := (default [] (od_get ch s)).*1]> m) (od_keys s) ∅.

(** [sum(1 for end in active_until.values() if end > abs_tick)] *)
Definition global_active (au : gmap Z Z) (abs_tick : Z) : Z :=
  Z.of_nat (size (filter (λ kv, abs_tick < kv.2) au)).

Definition emit (ch note abs_tick dur_ticks : Z) (st : GenState) : GenState :=
  let on_msg := note_on ch note 96 0 in
  let off_msg := note_off ch note 0 0 in
  {| events_by_ch :=
       <[ch := default [] (events_by_ch st !! ch)
               ++ [(abs_tick, on_msg); (abs_tick + dur_ticks, off_msg)]]>
         (events_by_ch st);
     active_until := <[ch := abs_tick + dur_ticks]> (active_until st);
     last_note := <[ch := note]> (last_note st) |}.

(** The body of [for step in range(steps)]. *)
Definition gen_step (channels : list Z) (models : gmap Z Trans)
    (fallback_notes : gmap Z (list Z)) (st : GenState) (step : nat)
  : Gen G GenState :=
  let abs_tick := Z.of_nat step * GRID in
  let ga := global_active (active_until st) abs_tick in
  let* i := pymod step (length channels) in
  let* ch := index channels i in
  let ch_busy := abs_tick <? default 0 (active_until st !! ch) in
  if negb ch_busy && (ga <? MAX_GLOBAL_POLY) then
    let* u := gdraw rnd_random in
    if f_lt u ONSET_PROB then
      let* dur_steps :=
        (if MAX_GLOBAL_POLY - 1 <=? ga
         then gdraw (rnd_choices [1; 2] [f_lit 0.9; f_lit 0.1])
         else gdraw (rnd_choices [1; 2; 4] [f_lit 0.6; f_lit 0.3; f_lit 0.1])) in
      let dur_ticks := dur_steps * GRID in
      let model := default [] (models !! ch) in
      let prev := last_note st !! ch in
      let* note := choose_note (default [] (od_get prev model)) prev
                      (default [] (fallback_notes !! ch)) in
      gret (emit ch note abs_tick dur_ticks st)
    else gret st
  else gret st.

Definition step_count (tpb : Z) : nat :=
  let total_ticks := BARS * 4 * tpb in
  Z.to_nat (total_ticks `div` GRID).

(** The loop run for its first [n] steps. *)
Definition gen_loop (channels : list Z) (models : gmap Z Trans)
    (fallback_notes : gmap Z (list Z)) (n : nat) : Gen G GenState :=
  gfold (gen_step channels models fallback_notes) (seq 0 n) gen_init.

Definition generate_events (models : gmap Z Trans) (s : odict Z NoteSeq)
    (progs : gmap Z Z) (tpb tempo_ : Z)
  : Gen G (gmap Z (list (Z * Msg)) * list Z) :=
  let channels := select_channels s in
  let* st := gen_loop channels models (fallback_pools s) (step_count tpb) in
  gret (events_by_ch st, channels).

(** *** [write_midi], up to the tracks handed to [mid.save] *)

Definition set_time (t : Z) (m : Msg) : Msg :=
  match m with
  | note_on ch n v _ => note_on ch n v t
  | note_off ch n v _ => note_off ch n v t
  | set_tempo tp _ => set_tempo tp t
  | program_change ch p _ => program_change ch p t
  | other_msg _ => other_msg t
  end.

(** [delta = atick - prev_tick; msg.time = max(0, int(delta))] *)
Fixpoint delta_times (prev_tick : Z) (evs : list (Z * Msg)) : list Msg :=
  match evs with
  | [] => []
  | (atick, msg) :: evs' =>
      set_time (Z.max 0 (atick - prev_tick)) msg :: delta_times atick evs'
  end.

Definition make_track (events : gmap Z (list (Z * Msg))) (progs : gmap Z Z)
    (ch : Z) : list Msg :=
  let prog := default 6 (progs !! ch) in
  let tr := [program_change ch prog 0] in
  let evs := default [] (events !! ch) in
  if truthy evs then tr ++ delta_times 0 (sort_by_key fst evs) else tr.

Definition write_midi (events : gmap Z (list (Z * Msg))) (channels : list Z)
    (progs : gmap Z Z) (tpb tempo_ : Z) : MidiFile :=
  let trs := map (make_track events progs) (sort_by_key id channels) in
  {| ticks_per_beat := tpb;
     tracks := match trs with
               | [] => []
               | tr0 :: rest => (set_tempo tempo_ 0 :: tr0) :: rest
               end |}.

(** *** [load_midis] and [main] *)

(** The input directory as the program sees it: whether it exists, what
    [os.listdir] returns (in the order of the operating system's choosing)
    and what [mido.MidiFile(path)] yields for a name ([None]: it raised). *)
Record Folder := {
  isdir : bool;
  listdir : list string;
  read_midi : string → option MidiFile;
}.

Definition lower_ascii (c : ascii) : ascii :=
  let n := nat_of_ascii c in
  if ((65 <=? n) && (n <=? 90))%nat then ascii_of_nat (n + 32) else c.

Fixpoint lower (s : string) : string :=
  match s with
  | EmptyString => EmptyString
  | String c s' => String (lower_ascii c) (lower s')
  end.

Definition endswith (s suffix : string) : bool :=
  let n := String.length s in
  let k := String.length suffix in
  ((k <=? n)%nat && String.eqb (String.substring (n - k) k s) suffix)%bool.

Definition is_midi_name (name : string) : bool :=
  endswith (lower name) ".mid" || endswith (lower name) ".midi".

Definition load_midis (folder : Folder) : list MidiFile :=
  if negb (isdir folder) then []
  else
    fold_left
      (λ mids name,
         if is_midi_name name then
           match read_midi folder name with
           | Some mid => mids ++ [mid]
           | None => mids
           end
         else mids)
      (stable_sort String.leb (listdir folder)) [].

(** [None]: the run ended at "No MIDI files" and wrote nothing. *)
Definition main (folder : Folder) : Gen G (option MidiFile) :=
  let mids := load_midis folder in
  if negb (truthy mids) then gret None
  else
    let e := extract_sequences mids in
    let models := build_markov_models (seqs e) in
    let* r := generate_events models (seqs e) (programs e) (ex_tpb e) (tempo e) in
    gret (Some (write_midi r.1 r.2 (programs e) (ex_tpb e) (tempo e))).
End Generator.

(** * Properties *)

(** ** Insertion-ordered dictionaries *)

Section OrderedDictFacts.
Context {K V : Type} `{EqDecision K}.
Implicit Types (k : K) (v : V) (d : odict K V).

Lemma od_get_set_eq k v d : od_get k (od_set k v d) = Some v.
Proof.
  induction d as [|[k' v'] d IH]; simpl.
  - by rewrite decide_True.
  - destruct (decide (k = k')) as [->|Hne]; simpl.
    + by rewrite decide_True.
    + by rewrite decide_False.
Qed.

Lemma od_get_set_ne k k' v d : k ≠ k' → od_get k' (od_set k v d) = od_get k' d.
Proof.
  intros Hne. induction d as [|[k0 v0] d IH]; simpl.
  - by rewrite decide_False.
  - destruct (decide (k = k0)) as [->|Hne0]; simpl.
    + by rewrite !decide_False.
    + destruct (decide (k' = k0)); [done | apply IH].
Qed.

Lemma od_set_nonempty k v d : od_set k v d ≠ [].
Proof. destruct d as [|[k' v'] d]; simpl; [done | by destruct (decide (k = k'))]. Qed.

Lemma od_keys_set k v d k' :
  k' ∈ od_keys (od_set k v d) ↔ k' = k ∨ k' ∈ od_keys d.
Proof.
  unfold od_keys. induction d as [|[k0 v0] d IH]; simpl.
  - rewrite elem_of_cons, elem_of_nil. tauto.
  - destruct (decide (k = k0)) as [->|Hne]; simpl.
    + rewrite !elem_of_cons. tauto.
    + rewrite !elem_of_cons, IH. tauto.
Qed.
End OrderedDictFacts.

(** ** Transition tables *)

(** The count stored for the transition [a -> b], if any. *)
Definition entry (a b : Z) (t : Trans) : option Z :=
  od_get b (default [] (od_get (Some a) t)).

(** The number of positions [i] with [arr[i]] of pitch [a] directly followed
    by a note of pitch [b]. *)
Definition pair_count (arr : NoteSeq) (a b : Z) (n : nat) : nat :=
  length (filter (λ i, pitch_at arr i = a ∧ pitch_at arr (S i) = b) (seq 0 n)).

Definition stored (c : nat) : option Z :=
  if (c =? 0)%nat then None else Some (Z.of_nat c).

Lemma entry_bump a b cur nxt t :
  entry a b (bump cur nxt t)
  = if decide (cur = a ∧ nxt = b) then Some (default 0 (entry a b t) + 1)
    else entry a b t.
Proof.
  unfold entry, bump.
  destruct (decide (cur = a)) as [->|Hne].
  - rewrite od_get_set_eq. simpl.
    destruct (decide (nxt = b)) as [->|Hne'].
    + rewrite od_get_set_eq, decide_True; done.
    + rewrite od_get_set_ne, decide_False by tauto. done.
  - rewrite od_get_set_ne by congruence. rewrite decide_False by tauto. done.
Qed.

Lemma none_key_bump cur nxt t : od_get None (bump cur nxt t) = od_get None t.
Proof. unfold bump. by rewrite od_get_set_ne. Qed.

Lemma counters_nonempty_bump cur nxt t :
  (∀ k c, od_get k t = Some c → c ≠ []) →
  ∀ k c, od_get k (bump cur nxt t) = Some c → c ≠ [].
Proof.
  intros Ht k c. unfold bump.
  destruct (decide (Some cur = k)) as [<-|Hne].
  - rewrite od_get_set_eq. intros [= <-]. apply od_set_nonempty.
  - rewrite od_get_set_ne by done. apply Ht.
Qed.

(** The table after the first [n] iterations of the loop. *)
Definition trans_prefix (arr : NoteSeq) (n : nat) : Trans :=
  fold_left (λ trans i, bump (pitch_at arr i) (pitch_at arr (S i)) trans)
            (seq 0 n) [].

Lemma trans_prefix_S arr n :
  trans_prefix arr (S n)
  = bump (pitch_at arr n) (pitch_at arr (S n)) (trans_prefix arr n).
Proof. unfold trans_prefix. by rewrite seq_S, fold_left_app. Qed.

Lemma pair_count_S arr a b n :
  pair_count arr a b (S n)
  = (pair_count arr a b n
     + if decide (pitch_at arr n = a ∧ pitch_at arr (S n) = b) then 1 else 0)%nat.
Proof.
  unfold pair_count. rewrite seq_S, filter_app, length_app. f_equal.
  simpl. rewrite filter_cons, filter_nil. by case_decide.
Qed.

Lemma entry_trans_prefix arr a b n :
  entry a b (trans_prefix arr n) = stored (pair_count arr a b n).
Proof.
  induction n as [|n IH]; [done|].
  rewrite trans_prefix_S, entry_bump, pair_count_S, IH.
  case_decide.
  - unfold stored. destruct (pair_count arr a b n) as [|c]; simpl.
    + done.
    + replace (S c + 1)%nat with (S (S c)) by lia. simpl. f_equal. lia.
  - by rewrite Nat.add_0_r.
Qed.

Lemma trans_prefix_keys arr n :
  od_get None (trans_prefix arr n) = None
  ∧ ∀ k c, od_get k (trans_prefix arr n) = Some c → c ≠ [].
Proof.
  induction n as [|n [IH1 IH2]]; [done|].
  rewrite trans_prefix_S. split.
  - by rewrite none_key_bump.
  - by apply counters_nonempty_bump.
Qed.

Lemma build_trans_no_none_key arr : od_get None (build_trans arr) = None.
Proof. apply (trans_prefix_keys arr (length arr - 1)). Qed.

Lemma build_markov_models_lookup (s : odict Z NoteSeq) (ch : Z) :
  (ch ∈ od_keys s → is_Some (build_markov_models s !! ch))
  ∧ ∀ t, build_markov_models s !! ch = Some t →
         ∃ arr, (ch, arr) ∈ s ∧ t = build_trans arr.
Proof.
  unfold build_markov_models.
  cut (∀ m0 : gmap Z Trans,
    let m := fold_left (λ models '(ch, arr), <[ch := build_trans arr]> models) s m0 in
    (ch ∈ od_keys s ∨ is_Some (m0 !! ch) → is_Some (m !! ch))
    ∧ ∀ t, m !! ch = Some t →
           m0 !! ch = Some t ∨ ∃ arr, (ch, arr) ∈ s ∧ t = build_trans arr).
  { intros Hc. destruct (Hc ∅) as [H1 H2]. split; [intros; apply H1; auto|].
    intros t Ht. destruct (H2 t Ht) as [H0|H0]; [by rewrite lookup_empty in H0 | done]. }
  induction s as [|[c arr] s IH]; intros m0; simpl.
  - split; [intros [H0|H0]; [by apply elem_of_nil in H0 | done] | auto].
  - destruct (IH (<[c := build_trans arr]> m0)) as [H1 H2]. split.
    + intros Hin. apply H1. rewrite lookup_insert.
      case_decide; [by right|]. destruct Hin as [Hin|Hin]; [|by right].
      left. apply elem_of_cons in Hin as [Hin|Hin]; [congruence | done].
    + intros t Ht. destruct (H2 t Ht) as [H0|(arr' & Hin & ->)].
      * rewrite lookup_insert in H0. case_decide.
        -- right. exists arr. injection H0 as <-. subst c. split; [left | done].
        -- by left.
      * right. exists arr'. split; [by right | done].
Qed.

(** C5: the table built for a voice stores, for every pair of pitches
    [a], [b], exactly the number of positions where a note of pitch [a] is
    directly followed by one of pitch [b], and stores nothing for a pair
    that never occurs; it has no key [None] and no empty counter; a
    sequence of fewer than two notes gives the empty table; the pitches
    60, 62, 60, 64 give [{60: {62: 1, 64: 1}, 62: {60: 1}}]; and
    [build_markov_models] maps every voice to the table of its sequence. *)
Theorem build_trans_counts_pairs :
  (∀ arr a b,
     entry a b (build_trans arr) = stored (pair_count arr a b (length arr - 1)))
  ∧ (∀ arr, od_get None (build_trans arr) = None)
  ∧ (∀ arr k c, od_get k (build_trans arr) = Some c → c ≠ [])
  ∧ (build_trans [] = [] ∧ ∀ x, build_trans [x] = [])
  ∧ (∀ d1 d2 d3 d4,
       build_trans [(60, d1); (62, d2); (60, d3); (64, d4)]
       = [(Some 60, [(62, 1); (64, 1)]); (Some 62, [(60, 1)])])
  ∧ (∀ s ch,
       (ch ∈ od_keys s → is_Some (build_markov_models s !! ch))
       ∧ ∀ t, build_markov_models s !! ch = Some t →
              ∃ arr, (ch, arr) ∈ s ∧ t = build_trans arr).
Proof.
  split; [|split; [|split; [|split; [|split]]]].
  - intros. apply entry_trans_prefix.
  - apply build_trans_no_none_key.
  - intros arr. apply (trans_prefix_keys arr (length arr - 1)).
  - done.
  - done.
  - apply build_markov_models_lookup.
Qed.

(** ** Extraction: recorded durations and ticks-per-beat *)

(** What closing a note appends: the measured duration, or the fallback
    computed from the ticks-per-beat value the scan was started with. *)
Lemma note_end_records tpb abs_t ch n s :
  sc_seqs (note_end tpb abs_t ch n s)
  = match active s !! ch ≫= (.!! n) with
    | Some start =>
        seqs_append ch
          (n, if abs_t - start <=? 0 then tpb `div` 4 else abs_t - start)
          (sc_seqs s)
    | None => sc_seqs s
    end.
Proof.
  unfold note_end. destruct (active s !! ch) as [open|]; simpl; [|done].
  by destruct (open !! n).
Qed.

(** Every recorded duration is positive. *)
Definition durations_positive (s : odict Z NoteSeq) : Prop :=
  ∀ ch arr, od_get ch s = Some arr → Forall (λ nd, 0 < nd.2) arr.

Lemma seqs_append_positive ch n dur s :
  0 < dur → durations_positive s → durations_positive (seqs_append ch (n, dur) s).
Proof.
  intros Hd Hs ch' arr. unfold seqs_append.
  destruct (decide (ch = ch')) as [<-|Hne].
  - rewrite od_get_set_eq. intros [= <-]. apply Forall_app. split.
    + destruct (od_get ch s) as [old|] eqn:E; simpl; [by eapply Hs | constructor].
    + by repeat constructor.
  - rewrite od_get_set_ne by done. apply Hs.
Qed.

Lemma scan_event_positive tpb s ev :
  4 ≤ tpb → durations_positive (sc_seqs s) →
  durations_positive (sc_seqs (scan_event tpb s ev)).
Proof.
  intros Htpb Hs.
  assert (Hend : ∀ abs_t ch n, durations_positive (sc_seqs (note_end tpb abs_t ch n s))).
  { intros abs_t ch n. rewrite note_end_records.
    destruct (active s !! ch ≫= _) as [start|]; [|done].
    apply seqs_append_positive; [|done].
    destruct (Z.leb_spec (abs_t - start) 0); [|lia].
    apply Z.div_str_pos. lia. }
  destruct ev as [abs_t [ch n vel t|ch n vel t|tp t|ch p t|t]]; simpl; try done.
  destruct (0 <? vel); [done|]. by destruct (vel =? 0).
Qed.

Lemma extract_file_positive e mid :
  4 ≤ ex_tpb e → (ticks_per_beat mid = 0 ∨ 4 ≤ ticks_per_beat mid) →
  durations_positive (seqs e) →
  4 ≤ ex_tpb (extract_file e mid) ∧ durations_positive (seqs (extract_file e mid)).
Proof.
  intros He Hm Hs. unfold extract_file. simpl.
  set (tpb := if ticks_per_beat mid =? 0 then ex_tpb e else ticks_per_beat mid).
  assert (4 ≤ tpb) as Htpb.
  { unfold tpb. destruct (Z.eqb_spec (ticks_per_beat mid) 0); lia. }
  split; [done|].
  generalize (file_events mid). intros evs.
  set (s0 := {| active := ∅; sc_seqs := seqs e; sc_programs := programs e;
                sc_tempo := tempo e |}).
  assert (durations_positive (sc_seqs s0)) as H0 by done.
  revert H0. generalize s0. clear s0.
  induction evs as [|ev evs IH]; intros s0 H0; simpl; [done|].
  apply IH. by apply scan_event_positive.
Qed.

(** X1: with at least four ticks per beat in every file that states a value,
    no recorded duration is zero or negative. *)
Lemma extract_durations_positive mids :
  Forall (λ mid, ticks_per_beat mid = 0 ∨ 4 ≤ ticks_per_beat mid) mids →
  durations_positive (seqs (extract_sequences mids)).
Proof.
  intros Hm. unfold extract_sequences.
  assert (4 ≤ ex_tpb extract_init ∧ durations_positive (seqs extract_init)) as H0.
  { split; [simpl; lia | intros ch arr; discriminate]. }
  revert H0. generalize extract_init.
  induction Hm as [|mid mids Hmid _ IH]; intros e [He Hs]; simpl; [done|].
  apply IH. by apply extract_file_positive.
Qed.

(** A file with two ticks per beat and one note released on the tick it
    started. *)
Definition zero_length_note_file : MidiFile :=
  {| ticks_per_beat := 2;
     tracks := [[note_on 0 60 64 0; note_off 0 60 0 0]] |}.

(** C6: on a file with 2 ticks per beat whose only note ends on the tick
    it starts, the measured duration 0 is replaced by [2 // 4 = 0], and the
    note is recorded with duration zero. *)
Theorem duration_fallback_zero_below_four_ticks :
  seqs (extract_sequences [zero_length_note_file]) = [(0, [(60, 0)])].
Proof. reflexivity. Qed.

(** The ticks-per-beat value of the last file that states a nonzero one,
    480 when there is none. *)
Definition last_nonzero_tpb (mids : list MidiFile) : Z :=
  default 480 (last (filter (λ t, t ≠ 0) (ticks_per_beat <$> mids))).

Lemma extract_sequences_snoc mids mid :
  extract_sequences (mids ++ [mid]) = extract_file (extract_sequences mids) mid.
Proof. unfold extract_sequences. by rewrite fold_left_app. Qed.

Lemma last_nonzero_tpb_snoc mids mid :
  last_nonzero_tpb (mids ++ [mid])
  = if ticks_per_beat mid =? 0 then last_nonzero_tpb mids else ticks_per_beat mid.
Proof.
  unfold last_nonzero_tpb. rewrite fmap_app, filter_app. simpl.
  rewrite filter_cons, filter_nil.
  destruct (Z.eqb_spec (ticks_per_beat mid) 0) as [E|E].
  - rewrite decide_False by tauto. by rewrite app_nil_r.
  - rewrite decide_True by done. by rewrite last_snoc.
Qed.

Lemma ex_tpb_extract_sequences mids :
  ex_tpb (extract_sequences mids) = last_nonzero_tpb mids.
Proof.
  induction mids as [|mid mids IH] using rev_ind; [done|].
  rewrite extract_sequences_snoc, last_nonzero_tpb_snoc. simpl. by rewrite IH.
Qed.

(** What a closing event (a note-off, or a note-on of velocity 0) records
    when it is scanned with the ticks-per-beat value [cur]. *)
Lemma scan_event_closing cur s abs_t ch n vel t msg :
  msg = note_off ch n vel t ∨ msg = note_on ch n 0 t →
  sc_seqs (scan_event cur s (abs_t, msg))
  = match active s !! ch ≫= (.!! n) with
    | Some start =>
        seqs_append ch
          (n, if abs_t - start <=? 0 then cur `div` 4 else abs_t - start)
          (sc_seqs s)
    | None => sc_seqs s
    end.
Proof. intros [-> | ->]; simpl; apply note_end_records. Qed.

(** A file that holds one note: started at tick [tick] and released [d]
    ticks later. *)
Definition one_note_file (tpb ch n vel tick d : Z) : MidiFile :=
  {| ticks_per_beat := tpb;
     tracks := [[note_on ch n vel tick; note_off ch n 0 d]] |}.

(** Extraction of a one-note file after any files: the note is recorded
    with its measured duration [d], or, when that is not positive, with a
    quarter of the ticks-per-beat value current for this file. *)
Lemma extract_one_note_file mids tpb ch n vel tick d :
  0 < vel → 0 ≤ d →
  seqs (extract_sequences (mids ++ [one_note_file tpb ch n vel tick d]))
  = seqs_append ch
      (n, if d <=? 0
          then last_nonzero_tpb (mids ++ [one_note_file tpb ch n vel tick d])
                 `div` 4
          else d)
      (seqs (extract_sequences mids)).
Proof.
  intros Hvel Hd.
  rewrite extract_sequences_snoc, last_nonzero_tpb_snoc,
    <- ex_tpb_extract_sequences.
  unfold extract_file, one_note_file. cbn [seqs ticks_per_beat].
  set (cur := if tpb =? 0 then _ else _).
  unfold file_events, sort_by_key.
  cbn [tracks map concat abs_events msg_time app stable_sort insert_sorted fst].
  rewrite (proj2 (Z.leb_le (0 + tick) (0 + tick + d))) by lia.
  cbn [fold_left scan_event]. rewrite (proj2 (Z.ltb_lt 0 vel) Hvel).
  rewrite note_end_records. cbn [active sc_seqs].
  rewrite lookup_insert_eq. cbn [mbind option_bind]. rewrite lookup_insert_eq.
  replace (0 + tick + d - (0 + tick)) with d by lia. done.
Qed.

(** C10: the ticks-per-beat value extraction returns is that of the last
    processed file with a nonzero one (480 if there is none); each file is
    scanned with the value current once its own header has been read; a
    closing event scanned with a value takes its fallback duration from that
    very value; and so a file holding one note, read after any files, has
    that note recorded with its measured duration or, when that is not
    positive, with a quarter of the value current for that file. *)
Theorem extract_ticks_per_beat_is_last_nonzero :
  (∀ mids, ex_tpb (extract_sequences mids) = last_nonzero_tpb mids)
  ∧ (∀ mids mid,
       let e := extract_sequences mids in
       let cur := last_nonzero_tpb (mids ++ [mid]) in
       let s := fold_left (scan_event cur) (file_events mid)
                  {| active := ∅; sc_seqs := seqs e;
                     sc_programs := programs e; sc_tempo := tempo e |} in
       extract_sequences (mids ++ [mid])
       = {| seqs := sc_seqs s; programs := sc_programs s;
            ex_tpb := cur; tempo := sc_tempo s |})
  ∧ (∀ cur abs_t ch n s,
       sc_seqs (note_end cur abs_t ch n s)
       = match active s !! ch ≫= (.!! n) with
         | Some start =>
             seqs_append ch
               (n, if abs_t - start <=? 0 then cur `div` 4 else abs_t - start)
               (sc_seqs s)
         | None => sc_seqs s
         end)
  ∧ (∀ cur s abs_t ch n vel t msg,
       msg = note_off ch n vel t ∨ msg = note_on ch n 0 t →
       sc_seqs (scan_event cur s (abs_t, msg))
       = match active s !! ch ≫= (.!! n) with
         | Some start =>
             seqs_append ch
               (n, if abs_t - start <=? 0 then cur `div` 4 else abs_t - start)
               (sc_seqs s)
         | None => sc_seqs s
         end)
  ∧ (∀ mids tpb ch n vel tick d,
       0 < vel → 0 ≤ d →
       seqs (extract_sequences
               (mids ++ [{| ticks_per_beat := tpb;
                            tracks := [[note_on ch n vel tick;
                                        note_off ch n 0 d]] |}]))
       = seqs_append ch
           (n, if d <=? 0
               then last_nonzero_tpb
                      (mids ++ [{| ticks_per_beat := tpb;
                                   tracks := [[note_on ch n vel tick;
                                               note_off ch n 0 d]] |}])
                      `div` 4
               else d)
           (seqs (extract_sequences mids))).
Proof.
  split; [apply ex_tpb_extract_sequences|].
  split; [|split; [apply note_end_records|]].
  - intros mids mid. simpl.
    rewrite extract_sequences_snoc, last_nonzero_tpb_snoc,
      <- ex_tpb_extract_sequences.
    reflexivity.
  - split; [apply scan_event_closing|].
    intros mids tpb ch n vel tick d. apply extract_one_note_file.
Qed.

(** ** The note selector *)

Section ChooseNote.
Context {F G : Type} {HF : PyFloat F} {HR : RandomSource F G}.

(** The running sum [s] once the weights at positions [0..k] have been
    added to the start value [s0]. *)
Definition cum_weight (s0 : F) (weights : list (Z * F)) (k : nat) : F :=
  fold_left f_add (take (S k) weights.*2) s0.

(** The cumulative-weight draw, as the specification words it: the candidate picked
    for the draw [r] is the first one whose cumulative weight reaches [r],
    and the last candidate when none does. *)
Definition cumulative_pick (r : F) (weights : list (Z * F)) (n : Z) : Prop :=
  (∃ k w, weights !! k = Some (n, w)
          ∧ f_le r (cum_weight (f_lit 0.0) weights k) = true
          ∧ ∀ j, (j < k)%nat → f_le r (cum_weight (f_lit 0.0) weights j) = false)
  ∨ (last weights.*1 = Some n
     ∧ ∀ j, (j < length weights)%nat →
            f_le r (cum_weight (f_lit 0.0) weights j) = false).

Lemma scan_weights_Some r s0 weights n :
  scan_weights r s0 weights = Some n →
  ∃ k w, weights !! k = Some (n, w)
         ∧ f_le r (cum_weight s0 weights k) = true
         ∧ ∀ j, (j < k)%nat → f_le r (cum_weight s0 weights j) = false.
Proof.
  revert s0. induction weights as [|[n0 w0] ws IH]; intros s0; simpl; [done|].
  destruct (f_le r (f_add s0 w0)) eqn:E.
  - intros [= <-]. exists 0%nat, w0. split; [done|]. split; [done | lia].
  - intros (k & w & Hk & Hle & Hlt)%IH. exists (S k), w.
    split; [done|]. split; [done|].
    intros [|j] Hj; [done|]. apply Hlt. lia.
Qed.

Lemma scan_weights_None r s0 weights :
  scan_weights r s0 weights = None →
  ∀ j, (j < length weights)%nat → f_le r (cum_weight s0 weights j) = false.
Proof.
  revert s0. induction weights as [|[n0 w0] ws IH]; intros s0; simpl.
  - intros _ j Hj. lia.
  - destruct (f_le r (f_add s0 w0)) eqn:E; [done|].
    intros Hs [|j] Hj; [done|]. apply (IH _ Hs). lia.
Qed.

Lemma scan_weights_elem r s0 weights n :
  scan_weights r s0 weights = Some n → n ∈ weights.*1.
Proof.
  intros (k & w & Hk & _)%scan_weights_Some.
  apply list_elem_of_lookup. exists k. by rewrite list_lookup_fmap, Hk.
Qed.

Lemma note_weights_keys candidates prev_note :
  (note_weights candidates prev_note).*1 = candidates.*1.
Proof.
  unfold note_weights. induction candidates as [|[n c] cs IH]; simpl; [done|].
  f_equal. apply IH.
Qed.

(** The last-position read [weights[-1]] of a non-empty list. *)
Lemma index_last {A} (x : A) (l : list A) (g : G) :
  index (x :: l) (length (x :: l) - 1) g = Ok (default x (last l), g).
Proof.
  unfold index. simpl. rewrite Nat.sub_0_r.
  destruct l as [|y l] using rev_ind; [done|].
  rewrite last_snoc, length_app. simpl.
  replace (length l + 1)%nat with (S (length l)) by lia. simpl.
  by rewrite lookup_app_r, Nat.sub_diag by lia.
Qed.

(** The selector on a non-empty table. *)
Lemma choose_note_table c0 rest prev_note fallback_notes (g : G) :
  let weights := note_weights (c0 :: rest) prev_note in
  let total := total_weight weights in
  if f_le total (f_int 0) then
    choose_note (c0 :: rest) prev_note fallback_notes g = Ok (c0.1, g)
  else
    ∃ n, choose_note (c0 :: rest) prev_note fallback_notes g
         = Ok (n, (rnd_random g).2)
         ∧ cumulative_pick (f_mul (rnd_random g).1 total) weights n.
Proof.
  intros weights total. unfold choose_note. cbn [truthy].
  fold weights. fold total. destruct (f_le total (f_int 0)); [done|].
  unfold gbind, gdraw. destruct (rnd_random g) as [u g'] eqn:Eu. cbn [fst snd].
  destruct (scan_weights _ _ weights) as [n|] eqn:Es.
  - exists n. split; [done|]. left. by apply scan_weights_Some.
  - pose proof (scan_weights_None _ _ _ Es) as Hnone.
    subst weights. destruct c0 as [n0 cnt0]. simpl note_weights in *.
    rewrite index_last. simpl.
    eexists. split; [done|]. right. split; [|done].
    simpl. destruct (note_weights rest prev_note) as [|c l] using rev_ind; [done|].
    rewrite fmap_app, !last_snoc. simpl.
    by rewrite app_comm_cons, last_snoc.
Qed.

(** The selector picks a key of the table whenever the table has one. *)
Lemma choose_note_table_elem c0 rest prev_note fallback_notes (g : G) :
  ∃ n g', choose_note (c0 :: rest) prev_note fallback_notes g = Ok (n, g')
          ∧ n ∈ (c0 :: rest).*1.
Proof.
  pose proof (choose_note_table c0 rest prev_note fallback_notes g) as Hc.
  cbv zeta in Hc. destruct (f_le _ _).
  - eexists _, _. split; [done|]. simpl. left.
  - destruct Hc as (n & Hn & Hpick). exists n, (rnd_random g).2.
    split; [done|]. rewrite <- (note_weights_keys _ prev_note).
    destruct Hpick as [(k & w & Hk & _)|[Hlast _]].
    + apply list_elem_of_lookup. exists k. by rewrite list_lookup_fmap, Hk.
    + by apply last_Some_elem_of.
Qed.

(** The selector returns a pitch on every input. *)
Lemma choose_note_total trans_counter prev_note fallback_notes (g : G) :
  ∃ n g', choose_note trans_counter prev_note fallback_notes g = Ok (n, g').
Proof.
  destruct trans_counter as [|c0 rest].
  - destruct fallback_notes as [|x pool]; [by exists 60, g|].
    exists (rnd_choice (x :: pool) g).1, (rnd_choice (x :: pool) g).2.
    unfold choose_note, gdraw. simpl. by rewrite <- surjective_pairing.
  - destruct (choose_note_table_elem c0 rest prev_note fallback_notes g)
      as (n & g' & Hn & _).
    by exists n, g'.
Qed.

(** The total weight is the sum of the weights, added up from the integer 0
    in candidate order. *)
Lemma total_weight_sum (weights : list (Z * F)) :
  total_weight weights = fold_left f_add weights.*2 (f_int 0).
Proof.
  unfold total_weight. generalize (f_int 0).
  induction weights as [|[n w] weights IH]; intros acc; simpl; [done|].
  apply IH.
Qed.

(** C4: a candidate's weight is its count times [lead]; [lead] is 1 at
    interval 0 and [1 / (1 + (interval / 7) ** 1.2)] otherwise; the total
    weight is the sum of the candidates' weights; on a non-empty table the
    first candidate is returned when the total weight is [<= 0] and
    otherwise the candidate of the cumulative-weight draw against
    [random() * total]; a sole candidate is returned whatever is drawn; on
    an empty table the result is [random.choice] of a non-empty pool, and 60
    when the pool is empty too; no input raises. *)
Theorem choose_note_policy :
  (∀ candidates prev_note,
     note_weights candidates prev_note
     = (λ pc, (pc.1, f_mul (f_int pc.2) (lead pc.1 prev_note))) <$> candidates)
  ∧ (∀ p q,
       lead p (Some q)
       = if decide (Z.abs (p - q) = 0) then f_lit 1.0
         else f_div (f_lit 1.0)
                (f_add (f_int 1)
                   (f_pow (f_div (f_int (Z.abs (p - q))) (f_lit 7.0))
                      (f_lit 1.2))))
  ∧ (∀ c0 rest prev_note fallback_notes (g : G),
       let weights := note_weights (c0 :: rest) prev_note in
       let total := total_weight weights in
       if f_le total (f_int 0) then
         choose_note (c0 :: rest) prev_note fallback_notes g = Ok (c0.1, g)
       else
         ∃ n, choose_note (c0 :: rest) prev_note fallback_notes g
              = Ok (n, (rnd_random g).2)
              ∧ cumulative_pick (f_mul (rnd_random g).1 total) weights n)
  ∧ (∀ p c prev_note fallback_notes (g : G),
       ∃ g', choose_note [(p, c)] prev_note fallback_notes g = Ok (p, g'))
  ∧ (∀ x pool prev_note (g : G),
       choose_note [] prev_note (x :: pool) g = Ok (rnd_choice (x :: pool) g)
       ∧ (rnd_choice (x :: pool) g).1 ∈ x :: pool)
  ∧ (∀ prev_note (g : G), choose_note [] prev_note [] g = Ok (60, g))
  ∧ (∀ trans_counter prev_note fallback_notes (g : G),
       ∃ n g', choose_note trans_counter prev_note fallback_notes g = Ok (n, g'))
  ∧ (∀ weights : list (Z * F),
       total_weight weights = fold_left f_add weights.*2 (f_int 0)).
Proof.
  split; [|split; [|split; [|split; [|split; [|split; [|split]]]]]];
    [| | | | | | |apply total_weight_sum].
  - intros candidates prev_note. unfold note_weights.
    apply map_ext. by intros [p c].
  - intros p q. unfold lead, interval_of, PREFER_STEP_WEIGHT.
    destruct (Z.eqb_spec (Z.abs (p - q)) 0); case_decide; done.
  - apply choose_note_table.
  - intros p c prev_note fallback_notes g.
    destruct (choose_note_table_elem (p, c) [] prev_note fallback_notes g)
      as (n & g' & Hn & Hin).
    apply list_elem_of_singleton in Hin as ->. by exists g'.
  - intros x pool prev_note g. split; [done | by apply rnd_choice_in].
  - done.
  - apply choose_note_total.
Qed.
End ChooseNote.

(** ** The generation loop *)

Section GenerateEvents.
Context {F G : Type} {HF : PyFloat F} {HR : RandomSource F G}.

Lemma select_channels_nonempty s : select_channels s ≠ [].
Proof. unfold select_channels. by destruct (take _ _).*1. Qed.

(** *** Busy voices *)

Lemma global_active_empty t : global_active ∅ t = 0.
Proof. unfold global_active. by rewrite map_filter_empty, map_size_empty. Qed.

(** Voices only fall silent as time passes. *)
Lemma global_active_mono au t t' :
  t ≤ t' → global_active au t' ≤ global_active au t.
Proof.
  intros Ht. unfold global_active. apply inj_le, map_subseteq_size.
  apply map_filter_strong_subseteq_ext. intros ch e [He Hl]. simpl in *.
  split; [lia | done].
Qed.

(** Setting one voice's busy-until tick adds at most one busy voice. *)
Lemma global_active_insert au ch e t :
  global_active (<[ch := e]> au) t ≤ global_active au t + 1.
Proof.
  unfold global_active. rewrite map_filter_insert. case_decide.
  - rewrite map_size_insert. destruct (filter _ au !! ch); simpl; lia.
  - rewrite map_filter_delete, map_size_delete.
    destruct (filter _ au !! ch); simpl; lia.
Qed.

(** *** One step *)

(** The note lengths an onset may draw, given the busy count before it. *)
Definition dur_choices (ga : Z) : list Z :=
  if MAX_GLOBAL_POLY - 1 <=? ga then [1; 2] else [1; 2; 4].

Definition dur_draw (ga : Z) (g : G) : Z * G :=
  if MAX_GLOBAL_POLY - 1 <=? ga
  then rnd_choices [1; 2] [f_lit 0.9; f_lit 0.1] g
  else rnd_choices [1; 2; 4] [f_lit 0.6; f_lit 0.3; f_lit 0.1] g.

Lemma dur_draw_in ga g : (dur_draw ga g).1 ∈ dur_choices ga.
Proof.
  unfold dur_draw, dur_choices.
  destruct (MAX_GLOBAL_POLY - 1 <=? ga); by apply rnd_choices_in.
Qed.

Lemma dur_choices_pos ga d : d ∈ dur_choices ga → 0 < d.
Proof.
  unfold dur_choices. destruct (_ <=? _);
    rewrite !elem_of_cons, elem_of_nil; lia.
Qed.

(** What an onset at [step] on voice [ch] consists of: the voice is the
    round-robin one and is free, the busy count is below the ceiling, the
    Bernoulli draw succeeded, [d] is the drawn length and [note] the
    selector's answer; [g'] is the random source afterwards. *)
Definition onset (channels : list Z) (models : gmap Z Trans)
    (fallback_notes : gmap Z (list Z)) (st : GenState) (step : nat) (g : G)
    (ch d note : Z) (g' : G) : Prop :=
  let abs_tick := Z.of_nat step * GRID in
  let ga := global_active (active_until st) abs_tick in
  let prev := last_note st !! ch in
  channels !! (step mod length channels)%nat = Some ch
  ∧ default 0 (active_until st !! ch) ≤ abs_tick
  ∧ ga < MAX_GLOBAL_POLY
  ∧ f_lt (rnd_random g).1 ONSET_PROB = true
  ∧ d = (dur_draw ga (rnd_random g).2).1
  ∧ choose_note (default [] (od_get prev (default [] (models !! ch)))) prev
      (default [] (fallback_notes !! ch)) (dur_draw ga (rnd_random g).2).2
    = Ok (note, g').

(** A step never raises on a non-empty voice list, and either leaves the
    state alone or emits one onset on the round-robin voice. *)
Lemma gen_step_cases channels models fallback_notes st step (g : G) :
  channels ≠ [] →
  ∃ st' g',
    gen_step channels models fallback_notes st step g = Ok (st', g')
    ∧ (st' = st
       ∨ ∃ ch d note,
           onset channels models fallback_notes st step g ch d note g'
           ∧ st' = emit ch note (Z.of_nat step * GRID) (d * GRID) st).
Proof.
  intros Hne. unfold gen_step, pymod, gbind.
  assert (length channels ≠ 0%nat) as Hlen by (by destruct channels).
  rewrite (proj2 (Nat.eqb_neq _ _) Hlen). unfold gret at 1.
  destruct (lookup_lt_is_Some_2 channels (step mod length channels)%nat)
    as [ch Hch]; [by apply Nat.mod_upper_bound|].
  unfold index. rewrite Hch. unfold gret at 1.
  set (T := Z.of_nat step * GRID).
  set (ga := global_active (active_until st) T).
  destruct (Z.ltb_spec T (default 0 (active_until st !! ch))) as [Hb|Hb];
    [by eexists _, _; split; [|left]|].
  destruct (Z.ltb_spec ga MAX_GLOBAL_POLY) as [Hga|Hga];
    [|by eexists _, _; split; [|left]].
  cbn [negb andb]. unfold gdraw at 1.
  destruct (rnd_random g) as [u g1] eqn:Eu.
  destruct (f_lt u ONSET_PROB) eqn:Ef; [|by eexists _, _; split; [|left]].
  set (m := if MAX_GLOBAL_POLY - 1 <=? ga then _ else _).
  assert (m g1 = Ok (dur_draw ga g1)) as ->.
  { unfold m, dur_draw, gdraw. by destruct (_ <=? _). }
  destruct (dur_draw ga g1) as [d g2] eqn:Ed.
  destruct (choose_note_total
              (default [] (od_get (last_note st !! ch) (default [] (models !! ch))))
              (last_note st !! ch) (default [] (fallback_notes !! ch)) g2)
    as (note & g3 & Hnote).
  rewrite Hnote. exists (emit ch note T (d * GRID) st), g3.
  split; [done|]. right. exists ch, d, note. split; [|done].
  unfold onset. fold T. fold ga. rewrite Eu. simpl. rewrite Ed. simpl.
  done.
Qed.

(** *** The loop *)

Lemma gfold_snoc {A B} (f : A → B → Gen G A) l x a (g : G) :
  gfold f (l ++ [x]) a g
  = match gfold f l a g with
    | Ok (a', g') => f a' x g'
    | Raise e => Raise e
    end.
Proof.
  revert a g. induction l as [|y l IH]; intros a g; simpl.
  - unfold gbind, gret. by destruct (f a x g) as [[a' g']|e].
  - unfold gbind. destruct (f a y g) as [[a' g']|e]; [apply IH | done].
Qed.

Lemma gen_loop_S channels models fallback_notes n (g : G) :
  gen_loop channels models fallback_notes (S n) g
  = match gen_loop channels models fallback_notes n g with
    | Ok (st, g') => gen_step channels models fallback_notes st n g'
    | Raise e => Raise e
    end.
Proof. unfold gen_loop. by rewrite seq_S, gfold_snoc. Qed.

(** Invariants of the loop: a property that holds initially, survives an
    idle step and survives every onset holds after any number of steps,
    and the loop does not raise. *)
Lemma gen_loop_invariant (I : nat → GenState → Prop)
    channels models fallback_notes :
  channels ≠ [] →
  I 0%nat gen_init →
  (∀ n st, I n st → I (S n) st) →
  (∀ n st g ch d note g',
     I n st → onset channels models fallback_notes st n g ch d note g' →
     I (S n) (emit ch note (Z.of_nat n * GRID) (d * GRID) st)) →
  ∀ n (g : G),
    ∃ st g', gen_loop channels models fallback_notes n g = Ok (st, g') ∧ I n st.
Proof.
  intros Hne Hinit Hidle Honset n g. induction n as [|n (st & g1 & Hrun & Hst)].
  - by exists gen_init, g.
  - rewrite gen_loop_S, Hrun.
    destruct (gen_step_cases channels models fallback_notes st n g1 Hne)
      as (st' & g' & Hstep & [->|(ch & d & note & Hon & ->)]);
      eexists _, _; (split; [done|]); eauto.
Qed.

(** *** Polyphony *)

Lemma onset_busy_bound channels models fallback_notes st step (g : G)
    ch d note g' t :
  onset channels models fallback_notes st step g ch d note g' →
  Z.of_nat step * GRID ≤ t →
  global_active
    (active_until (emit ch note (Z.of_nat step * GRID) (d * GRID) st)) t
  ≤ MAX_GLOBAL_POLY.
Proof.
  intros (_ & _ & Hga & _) Ht. simpl.
  etrans; [by apply global_active_mono|].
  etrans; [apply global_active_insert|]. lia.
Qed.

(** C1: after any number of steps of the loop, at every tick from the
    tick of the last step on, at most [MAX_GLOBAL_POLY] voices are busy;
    and a step emits an onset only when fewer than [MAX_GLOBAL_POLY]
    voices are busy at its tick, after which at most [MAX_GLOBAL_POLY]
    are. *)
Theorem global_polyphony_ceiling (s : odict Z NoteSeq) (models : gmap Z Trans)
    (n : nat) (g : G) :
  (∃ st g',
     gen_loop (select_channels s) models (fallback_pools s) n g = Ok (st, g')
     ∧ ∀ t, (Z.of_nat n - 1) * GRID ≤ t →
            global_active (active_until st) t ≤ MAX_GLOBAL_POLY)
  ∧ (∀ st, ∃ st' g',
       gen_step (select_channels s) models (fallback_pools s) st n g
       = Ok (st', g')
       ∧ (st' = st
          ∨ (events_by_ch st' ≠ events_by_ch st
             ∧ global_active (active_until st) (Z.of_nat n * GRID)
               < MAX_GLOBAL_POLY
             ∧ global_active (active_until st') (Z.of_nat n * GRID)
               ≤ MAX_GLOBAL_POLY))).
Proof.
  split.
  - apply (gen_loop_invariant
             (λ n st, ∀ t, (Z.of_nat n - 1) * GRID ≤ t →
                           global_active (active_until st) t ≤ MAX_GLOBAL_POLY)).
    + apply select_channels_nonempty.
    + intros t _. simpl. by rewrite global_active_empty.
    + intros k st Hst t Ht. apply Hst. unfold GRID in *. lia.
    + intros k st g0 ch d note g' _ Hon t Ht.
      eapply onset_busy_bound; [done|]. unfold GRID in *. lia.
  - intros st.
    destruct (gen_step_cases (select_channels s) models (fallback_pools s)
                st n g (select_channels_nonempty s))
      as (st' & g' & Hstep & [->|(ch & d & note & Hon & ->)]);
      eexists _, g'; (split; [done|]); [by left|right].
    split; [|split].
    + simpl. intros Heq.
      apply (f_equal (λ m, length (default [] (m !! ch)))) in Heq.
      rewrite lookup_insert_eq in Heq. simpl in Heq.
      rewrite length_app in Heq. simpl in Heq. lia.
    + by destruct Hon as (_ & _ & Hga & _).
    + by eapply onset_busy_bound.
Qed.

(** *** Generated notes *)

(** A generated note: its start tick, end tick and pitch. *)
Record Span := { sp_start : Z; sp_end : Z; sp_pitch : Z }.

(** The two events an onset appends to its voice's list. *)
Definition span_events (ch : Z) (n : Span) : list (Z * Msg) :=
  [(sp_start n, note_on ch (sp_pitch n) 96 0);
   (sp_end n, note_off ch (sp_pitch n) 0 0)].

Definition voice_events (ch : Z) (notes : list Span) : list (Z * Msg) :=
  concat (span_events ch <$> notes).

(** A note lasts 1, 2 or 4 grid steps. *)
Definition span_wf (n : Span) : Prop :=
  ∃ d, d ∈ [1; 2; 4] ∧ sp_end n = sp_start n + d * GRID.

(** Each note starts at or after [lo], ends after it starts, and the next
    one starts at or after its end. *)
Fixpoint chained (lo : Z) (notes : list Span) : Prop :=
  match notes with
  | [] => True
  | n :: notes' => lo ≤ sp_start n ∧ sp_start n < sp_end n ∧ chained (sp_end n) notes'
  end.

(** No two notes of the list sound at the same time. *)
Definition no_overlap (notes : list Span) : Prop :=
  ∀ i j a b, (i < j)%nat → notes !! i = Some a → notes !! j = Some b →
             sp_start a < sp_end a ∧ sp_end a ≤ sp_start b.

Definition end_of (lo : Z) (notes : list Span) : Z :=
  default lo (sp_end <$> last notes).

Lemma end_of_cons lo n notes : end_of lo (n :: notes) = end_of (sp_end n) notes.
Proof. unfold end_of. rewrite last_cons. by destruct (last notes). Qed.

Lemma chained_snoc lo notes n :
  chained lo notes → end_of lo notes ≤ sp_start n → sp_start n < sp_end n →
  chained lo (notes ++ [n]).
Proof.
  revert lo. induction notes as [|a notes IH]; intros lo; simpl.
  - by intros _ Hlo Hn.
  - intros (Ha1 & Ha2 & Hc) Hlo Hn. rewrite end_of_cons in Hlo. auto.
Qed.

Lemma chained_lower lo notes b : chained lo notes → b ∈ notes → lo ≤ sp_start b.
Proof.
  revert lo. induction notes as [|a notes IH]; intros lo; simpl.
  - by intros _ ?%elem_of_nil.
  - intros (Ha1 & Ha2 & Hc) [->|Hin]%elem_of_cons; [done|].
    specialize (IH _ Hc Hin). lia.
Qed.

Lemma chained_no_overlap lo notes : chained lo notes → no_overlap notes.
Proof.
  revert lo. induction notes as [|n notes IH]; intros lo; simpl.
  - by intros _ i j a b _ ?.
  - intros (Hn1 & Hn2 & Hc) [|i] [|j] a b Hij Ha Hb; simpl in *; try lia.
    + injection Ha as <-. split; [done|].
      eapply chained_lower; [done|]. by eapply list_elem_of_lookup_2.
    + eapply (IH _ Hc i j); [lia | done | done].
Qed.

(** What the loop maintains for every voice: its event list is the list of
    the note pairs emitted so far, each 1, 2 or 4 steps long, chained in
    time, and its busy-until tick is the end of the last one. *)
Definition voice_ok (st : GenState) (ch : Z) : Prop :=
  ∃ notes,
    default [] (events_by_ch st !! ch) = voice_events ch notes
    ∧ Forall span_wf notes
    ∧ chained 0 notes
    ∧ default 0 (active_until st !! ch) = end_of 0 notes.

Lemma voice_ok_init ch : voice_ok gen_init ch.
Proof. by exists []. Qed.

Lemma dur_choices_sub ga d : d ∈ dur_choices ga → d ∈ [1; 2; 4].
Proof.
  unfold dur_choices. destruct (_ <=? _);
    rewrite !elem_of_cons, !elem_of_nil; tauto.
Qed.

Lemma voice_ok_emit channels models fallback_notes st step (g : G)
    ch d note g' ch' :
  onset channels models fallback_notes st step g ch d note g' →
  voice_ok st ch' →
  voice_ok (emit ch note (Z.of_nat step * GRID) (d * GRID) st) ch'.
Proof.
  intros (_ & Hfree & _ & _ & Hd & _) (notes & Hev & Hwf & Hch & Hau).
  assert (d ∈ dur_choices (global_active (active_until st) (Z.of_nat step * GRID)))
    as Hin by (rewrite Hd; apply dur_draw_in).
  pose proof (dur_choices_pos _ _ Hin) as Hpos.
  destruct (decide (ch = ch')) as [<-|Hne].
  - set (T := Z.of_nat step * GRID) in *.
    exists (notes ++ [{| sp_start := T; sp_end := T + d * GRID; sp_pitch := note |}]).
    simpl. rewrite !lookup_insert_eq. simpl.
    split; [|split; [|split]].
    + unfold voice_events. rewrite Hev, fmap_app, concat_app. done.
    + apply Forall_app. split; [done|]. constructor; [|done].
      exists d. split; [by eapply dur_choices_sub | done].
    + apply chained_snoc; simpl; [done | by rewrite <- Hau | unfold GRID; lia].
    + unfold end_of. by rewrite last_snoc.
  - exists notes. simpl. by rewrite !lookup_insert_ne.
Qed.

Lemma gen_loop_voices_ok (s : odict Z NoteSeq) (models : gmap Z Trans)
    (n : nat) (g : G) :
  ∃ st g',
    gen_loop (select_channels s) models (fallback_pools s) n g = Ok (st, g')
    ∧ ∀ ch, voice_ok st ch.
Proof.
  apply (gen_loop_invariant (λ _ st, ∀ ch, voice_ok st ch)).
  - apply select_channels_nonempty.
  - apply voice_ok_init.
  - done.
  - intros k st g0 ch d note g' Hst Hon ch'. by eapply voice_ok_emit.
Qed.

(** C7: a step of the loop either leaves the state alone or appends to
    the round-robin voice a note-start at the current tick and a note-end
    of the same pitch at [current tick + d * GRID], with [d] among 1, 2
    when the busy count is at least [MAX_GLOBAL_POLY - 1] and among
    1, 2, 4 otherwise; the end tick is after the start tick and becomes the
    voice's busy-until tick. Hence, after any number of steps, every
    voice's event list consists of such pairs. *)
Theorem generated_pairs_well_formed (s : odict Z NoteSeq)
    (models : gmap Z Trans) (n : nat) (g : G) :
  (∀ st, ∃ st' g',
     gen_step (select_channels s) models (fallback_pools s) st n g = Ok (st', g')
     ∧ (st' = st
        ∨ ∃ ch d note,
            let abs_tick := Z.of_nat n * GRID in
            let end_tick := abs_tick + d * GRID in
            select_channels s !! (n mod length (select_channels s))%nat = Some ch
            ∧ d ∈ (if MAX_GLOBAL_POLY - 1
                      <=? global_active (active_until st) abs_tick
                   then [1; 2] else [1; 2; 4])
            ∧ abs_tick < end_tick
            ∧ events_by_ch st'
              = <[ch := default [] (events_by_ch st !! ch)
                        ++ [(abs_tick, note_on ch note 96 0);
                            (end_tick, note_off ch note 0 0)]]>
                  (events_by_ch st)
            ∧ active_until st' = <[ch := end_tick]> (active_until st)))
  ∧ (∃ st g',
       gen_loop (select_channels s) models (fallback_pools s) n g = Ok (st, g')
       ∧ ∀ ch, ∃ notes,
           default [] (events_by_ch st !! ch) = voice_events ch notes
           ∧ Forall span_wf notes
           ∧ Forall (λ sp, sp_start sp < sp_end sp) notes).
Proof.
  split.
  - intros st.
    destruct (gen_step_cases (select_channels s) models (fallback_pools s)
                st n g (select_channels_nonempty s))
      as (st' & g' & Hstep & [->|(ch & d & note & Hon & ->)]);
      eexists _, g'; (split; [done|]); [by left|right].
    exists ch, d, note. destruct Hon as (Hch & _ & _ & _ & Hd & _).
    assert (d ∈ dur_choices (global_active (active_until st) (Z.of_nat n * GRID)))
      as Hin by (rewrite Hd; apply dur_draw_in).
    pose proof (dur_choices_pos _ _ Hin) as Hpos.
    cbv zeta. split; [done|]. split; [done|]. split; [unfold GRID; lia | done].
  - destruct (gen_loop_voices_ok s models n g) as (st & g' & Hrun & Hok).
    exists st, g'. split; [done|]. intros ch.
    destruct (Hok ch) as (notes & Hev & Hwf & _ & _).
    exists notes. split; [done|]. split; [done|].
    eapply Forall_impl; [done|]. intros sp (d & Hd & ->).
    rewrite !elem_of_cons, elem_of_nil in Hd. unfold GRID. lia.
Qed.

(** C3: at every step one voice, [channels[step % len(channels)]], is the
    only one whose events, busy-until tick or last pitch can change, and
    it changes nothing when it is busy at the step's tick; so after any
    number of steps every voice's events are note pairs no two of which
    overlap. *)
Theorem round_robin_no_overlap (s : odict Z NoteSeq) (models : gmap Z Trans)
    (n : nat) (g : G) :
  (∀ st, ∃ ch st' g',
     select_channels s !! (n mod length (select_channels s))%nat = Some ch
     ∧ gen_step (select_channels s) models (fallback_pools s) st n g
       = Ok (st', g')
     ∧ (∀ ch', ch' ≠ ch →
          events_by_ch st' !! ch' = events_by_ch st !! ch'
          ∧ active_until st' !! ch' = active_until st !! ch'
          ∧ last_note st' !! ch' = last_note st !! ch')
     ∧ (Z.of_nat n * GRID < default 0 (active_until st !! ch) → st' = st))
  ∧ (∃ st g',
       gen_loop (select_channels s) models (fallback_pools s) n g = Ok (st, g')
       ∧ ∀ ch, ∃ notes,
           default [] (events_by_ch st !! ch) = voice_events ch notes
           ∧ no_overlap notes).
Proof.
  split.
  - intros st.
    pose proof (select_channels_nonempty s) as Hne.
    destruct (lookup_lt_is_Some_2 (select_channels s)
                (n mod length (select_channels s))%nat) as [ch Hch].
    { apply Nat.mod_upper_bound. by destruct (select_channels s). }
    destruct (gen_step_cases (select_channels s) models (fallback_pools s)
                st n g Hne)
      as (st' & g' & Hstep & [->|(ch0 & d & note & Hon & ->)]);
      exists ch; eexists _, g'; (split; [done|]); (split; [done|]); [done|].
    destruct Hon as (Hch0 & Hfree & _). rewrite Hch in Hch0.
    injection Hch0 as <-. split.
    + intros ch' Hne'. simpl. by rewrite !lookup_insert_ne.
    + intros Hbusy. lia.
  - destruct (gen_loop_voices_ok s models n g) as (st & g' & Hrun & Hok).
    exists st, g'. split; [done|]. intros ch.
    destruct (Hok ch) as (notes & Hev & _ & Hch & _).
    exists notes. split; [done|]. by eapply chained_no_overlap.
Qed.

(** *** First onsets *)

Lemma models_no_none_key (s : odict Z NoteSeq) ch :
  od_get None (default [] (build_markov_models s !! ch)) = None.
Proof.
  destruct (build_markov_models s !! ch) as [t|] eqn:E; simpl; [|done].
  apply build_markov_models_lookup in E as (arr & _ & ->).
  apply build_trans_no_none_key.
Qed.

Lemma fallback_pools_lookup (s : odict Z NoteSeq) ch :
  fallback_pools s !! ch
  = if decide (ch ∈ od_keys s) then Some (default [] (od_get ch s)).*1 else None.
Proof.
  unfold fallback_pools.
  cut (∀ ks (m0 : gmap Z (list Z)),
         fold_left (λ m c, <[c := (default [] (od_get c s)).*1]> m) ks m0 !! ch
         = if decide (ch ∈ ks) then Some (default [] (od_get ch s)).*1
           else m0 !! ch).
  { intros Hc. rewrite Hc. by rewrite lookup_empty. }
  induction ks as [|k ks IH]; intros m0; cbn [fold_left].
  - destruct (decide (ch ∈ [])) as [Hin|]; [by apply elem_of_nil in Hin | done].
  - rewrite IH. destruct (decide (ch ∈ ks)) as [Hin|Hin].
    + rewrite decide_True; [done | by right].
    + rewrite lookup_insert. destruct (decide (k = ch)) as [->|Hne].
      * rewrite decide_True; [done | left].
      * rewrite decide_False; [done|].
        rewrite elem_of_cons. intros [->|?]; done.
Qed.

(** C9: when the round-robin voice has no last pitch yet, the table
    handed to the selector is the lookup of [None], which no built table
    has, so the selector runs on an empty table: the pitch of the onset is
    [random.choice] of the voice's fallback pool, or 60 when the pool is
    empty. The pool of a voice of the corpus is the list of its pitches. *)
Theorem first_onset_uses_fallback (s : odict Z NoteSeq) (st : GenState)
    (n : nat) (g : G) (ch : Z) :
  select_channels s !! (n mod length (select_channels s))%nat = Some ch →
  last_note st !! ch = None →
  let pool := default [] (fallback_pools s !! ch) in
  let abs_tick := Z.of_nat n * GRID in
  let g2 := (dur_draw (global_active (active_until st) abs_tick)
               (rnd_random g).2).2 in
  (∀ ch', od_get None (default [] (build_markov_models s !! ch')) = None)
  ∧ fallback_pools s !! ch
    = (if decide (ch ∈ od_keys s) then Some (default [] (od_get ch s)).*1
       else None)
  ∧ ∃ st' g',
      gen_step (select_channels s) (build_markov_models s) (fallback_pools s)
        st n g = Ok (st', g')
      ∧ (st' = st
         ∨ ∃ d note,
             st' = emit ch note abs_tick (d * GRID) st
             ∧ choose_note [] None pool g2 = Ok (note, g')
             ∧ ((pool = [] ∧ note = 60 ∧ g' = g2)
                ∨ (pool ≠ [] ∧ (note, g') = rnd_choice pool g2 ∧ note ∈ pool))).
Proof.
  intros Hch Hlast pool abs_tick g2.
  split; [apply models_no_none_key|]. split; [apply fallback_pools_lookup|].
  destruct (gen_step_cases (select_channels s) (build_markov_models s)
              (fallback_pools s) st n g (select_channels_nonempty s))
    as (st' & g' & Hstep & [->|(ch0 & d & note & Hon & ->)]);
    eexists _, g'; (split; [done|]); [by left|right].
  destruct Hon as (Hch0 & _ & _ & _ & _ & Hnote).
  rewrite Hch in Hch0. injection Hch0 as <-.
  rewrite Hlast, models_no_none_key in Hnote. simpl in Hnote.
  fold pool abs_tick g2 in Hnote.
  exists d, note. split; [done|]. split; [done|].
  unfold choose_note in Hnote. simpl in Hnote.
  destruct pool as [|x pool'] eqn:Epool; simpl in Hnote.
  - injection Hnote as <- <-. by left.
  - unfold gdraw in Hnote. injection Hnote as Hnote. right.
    split; [done|]. split; [done|].
    replace note with (rnd_choice (x :: pool') g2).1 by by rewrite Hnote.
    by apply rnd_choice_in.
Qed.

(** *** Runs on an empty corpus *)

Definition msg_pitch (m : Msg) : option Z :=
  match m with
  | note_on _ n _ _ | note_off _ n _ _ => Some n
  | _ => None
  end.



End GenerateEvents.

(** ** Reproducibility *)

Section StableSortFacts.
Context {A : Type} (le : A → A → bool).

Lemma insert_sorted_perm x l : insert_sorted le x l ≡ₚ x :: l.
Proof.
  induction l as [|y l IH]; simpl; [done|].
  destruct (le x y); [done|]. rewrite IH. apply perm_swap.
Qed.

Lemma stable_sort_perm l : stable_sort le l ≡ₚ l.
Proof.
  induction l as [|x l IH]; simpl; [done|].
  by rewrite insert_sorted_perm, IH.
Qed.

Hypothesis le_total : ∀ x y, le x y = true ∨ le y x = true.

Lemma insert_sorted_Sorted x l :
  Sorted (λ a b, le a b = true) l →
  Sorted (λ a b, le a b = true) (insert_sorted le x l).
Proof.
  induction 1 as [|y l Hl IH Hhd]; simpl.
  - by repeat constructor.
  - destruct (le x y) eqn:E.
    + by repeat constructor.
    + constructor; [done|].
      destruct Hhd as [|z l' Hyz]; simpl.
      * constructor. by destruct (le_total x y) as [Hxy|Hyx]; [congruence|].
      * destruct (le x z); constructor; [|done].
        by destruct (le_total x y) as [Hxy|Hyx]; [congruence|].
Qed.

Lemma stable_sort_Sorted l : Sorted (λ a b, le a b = true) (stable_sort le l).
Proof.
  induction l as [|x l IH]; simpl; [constructor|].
  by apply insert_sorted_Sorted.
Qed.
End StableSortFacts.

Lemma ascii_compare_trans_le a b c :
  Ascii.compare a b ≠ Gt → Ascii.compare b c ≠ Gt → Ascii.compare a c ≠ Gt.
Proof.
  unfold Ascii.compare. rewrite !N.compare_gt_iff. lia.
Qed.

Lemma ascii_compare_refl a : Ascii.compare a a = Eq.
Proof. unfold Ascii.compare. apply N.compare_refl. Qed.

Lemma string_compare_trans_le (s1 s2 s3 : string) :
  String.compare s1 s2 ≠ Gt → String.compare s2 s3 ≠ Gt →
  String.compare s1 s3 ≠ Gt.
Proof.
  revert s2 s3. induction s1 as [|a s1 IH]; intros [|b s2] [|c s3]; simpl;
    try done.
  destruct (Ascii.compare a b) eqn:Eab; [| |done].
  - apply Ascii.compare_eq_iff in Eab as ->.
    destruct (Ascii.compare b c); [apply IH | done | done].
  - intros _. destruct (Ascii.compare b c) eqn:Ebc; [| |done].
    + apply Ascii.compare_eq_iff in Ebc as <-. by rewrite Eab.
    + intros _.
      assert (Ascii.compare a c = Lt) as ->; [|done].
      unfold Ascii.compare in *. rewrite N.compare_lt_iff in *. lia.
Qed.

Definition string_le (s1 s2 : string) : Prop := String.leb s1 s2 = true.

#[local] Instance string_le_trans : Transitive string_le.
Proof.
  intros s1 s2 s3. unfold string_le, String.leb. intros H12 H23.
  pose proof (string_compare_trans_le s1 s2 s3) as Ht.
  destruct (String.compare s1 s2); try done;
    destruct (String.compare s2 s3); try done;
    destruct (String.compare s1 s3); try done; by exfalso; apply Ht.
Qed.

#[local] Instance string_le_antisymm : AntiSymm (=) string_le.
Proof. intros s1 s2. apply String.leb_antisym. Qed.

(** Sorting makes the order of [os.listdir] irrelevant. *)
Lemma sorted_names_unique (l1 l2 : list string) :
  l1 ≡ₚ l2 → stable_sort String.leb l1 = stable_sort String.leb l2.
Proof.
  intros Hp. apply (Sorted_unique string_le).
  - apply stable_sort_Sorted, String.leb_total.
  - apply stable_sort_Sorted, String.leb_total.
  - by rewrite !stable_sort_perm.
Qed.

Lemma fold_left_pointwise {A B} (f1 f2 : A → B → A) (l : list B) (a : A) :
  (∀ a b, f1 a b = f2 a b) → fold_left f1 l a = fold_left f2 l a.
Proof.
  intros Hf. revert a. induction l as [|b l IH]; intros a; simpl; [done|].
  by rewrite Hf, IH.
Qed.

Section Determinism.
Context {F G : Type} {HF : PyFloat F} {HR : RandomSource F G}.

Lemma load_midis_listing_order (folder1 folder2 : Folder) :
  isdir folder1 = isdir folder2 →
  listdir folder1 ≡ₚ listdir folder2 →
  (∀ name, read_midi folder1 name = read_midi folder2 name) →
  load_midis folder1 = load_midis folder2.
Proof.
  intros Hd Hl Hr. unfold load_midis.
  rewrite Hd, (sorted_names_unique _ _ Hl).
  destruct (negb _); [done|].
  apply fold_left_pointwise. intros mids name. by rewrite Hr.
Qed.

(** C8: two runs on the same directory contents (whatever order the
    operating system lists them in), reading the same files, with the
    random source in the same state, end in the same result: the same
    output tracks (or both write nothing) and the same final state of the
    random source. The files are visited in lexicographic order of their
    names. *)
Theorem pipeline_deterministic (folder1 folder2 : Folder) (g : G) :
  isdir folder1 = isdir folder2 →
  listdir folder1 ≡ₚ listdir folder2 →
  (∀ name, read_midi folder1 name = read_midi folder2 name) →
  Sorted string_le (stable_sort String.leb (listdir folder1))
  ∧ load_midis folder1 = load_midis folder2
  ∧ main folder1 g = main folder2 g.
Proof.
  intros Hd Hl Hr.
  split; [apply stable_sort_Sorted, String.leb_total|].
  pose proof (load_midis_listing_order _ _ Hd Hl Hr) as Hload.
  split; [done|]. unfold main. by rewrite Hload.
Qed.
End Determinism.

(** * Concrete runs *)

(** ** A concrete float type and a scripted random source

    Exact rationals stand in for floats, with [x ** y] read as [x]; a
    generator state is the list of the uniform draws still to come, and an
    exhausted script keeps answering [1]. *)

#[export] Instance QFloat : PyFloat Q := {|
  f_lit q := q;
  f_int z := inject_Z z;
  f_add := Qplus;
  f_mul := Qmult;
  f_div := Qdiv;
  f_pow x _ := x;
  f_le := Qle_bool;
  f_lt x y := negb (Qle_bool y x);
|}.

Definition next_draw (g : list Q) : Q * list Q :=
  match g with
  | [] => (1%Q, [])
  | u :: g' => (u, g')
  end.

(** The element at position [floor (u * len)], the first one if out of range. *)
Definition pick (pop : list Z) (u : Q) : Z :=
  let i := Z.to_nat (Qfloor (u * inject_Z (Z.of_nat (length pop)))) in
  default (hd 0 pop) (pop !! i).

Lemma pick_in pop u : pop ≠ [] → pick pop u ∈ pop.
Proof.
  intros Hne. unfold pick.
  destruct (pop !! _) as [x|] eqn:E; simpl.
  - by eapply list_elem_of_lookup_2.
  - destruct pop; [done | apply list_elem_of_here].
Qed.

#[export] Program Instance ScriptedSource : RandomSource Q (list Q) := {|
  rnd_random := next_draw;
  rnd_choices pop _ g := (pick pop (next_draw g).1, (next_draw g).2);
  rnd_choice pop g := (pick pop (next_draw g).1, (next_draw g).2);
|}.
Next Obligation. intros; simpl; by apply pick_in. Qed.
Next Obligation. intros; simpl; by apply pick_in. Qed.

(** A two-voice file: voice 0 plays 60, 62, 60, 64 and voice 1 plays one
    note that is released on the tick it starts. *)
Definition demo_file : MidiFile :=
  {| ticks_per_beat := 96;
     tracks :=
       [[program_change 0 12 0; note_on 0 60 64 0; note_off 0 60 0 96;
         note_on 0 62 64 0; note_on 0 62 0 48; note_on 0 60 64 0;
         note_off 0 60 0 24; note_on 0 64 64 0; note_off 0 64 0 24];
        [note_on 1 72 80 10; note_off 1 72 0 0; note_off 1 40 0 5]] |}.

Example extract_demo_seqs :
  seqs (extract_sequences [demo_file])
  = [(1, [(72, 24)]); (0, [(60, 96); (62, 48); (60, 24); (64, 24)])].
Proof. reflexivity. Qed.

(** After [demo_file], a file that states no ticks per beat and holds one
    note released on the tick it starts: the note gets a quarter of the 96
    ticks per beat carried over from [demo_file]. *)
Lemma extract_ticks_per_beat_is_last_nonzero_witness :
  0 < 80 ∧ 0 ≤ 0
  ∧ last_nonzero_tpb
      [demo_file;
       {| ticks_per_beat := 0;
          tracks := [[note_on 1 72 80 10; note_off 1 72 0 0]] |}] = 96
  ∧ seqs (extract_sequences
            [demo_file;
             {| ticks_per_beat := 0;
                tracks := [[note_on 1 72 80 10; note_off 1 72 0 0]] |}])
    = [(1, [(72, 24); (72, 24)]); (0, [(60, 96); (62, 48); (60, 24); (64, 24)])].
Proof.
  assert (0 < 80) as H1 by lia. assert (0 ≤ 0) as H2 by lia.
  split; [exact H1|]. split; [exact H2|]. split; [reflexivity|].
  exact (proj2 (proj2 (proj2 (proj2 extract_ticks_per_beat_is_last_nonzero)))
           [demo_file] 0 1 72 80 10 0 H1 H2).
Defined.

Example extract_demo_tpb :
  ex_tpb (extract_sequences
            [demo_file; {| ticks_per_beat := 0; tracks := [] |}]) = 96.
Proof. reflexivity. Qed.

Example choose_note_sole_candidate :
  choose_note [(60, 5)] (Some 60) [] [0.73%Q] = Ok (60, []).
Proof. reflexivity. Qed.

Example choose_note_second_candidate :
  choose_note [(62, 1); (64, 1)] (Some 60) [] [0.9%Q] = Ok (64, []).
Proof. reflexivity. Qed.

(** A directory with one file that holds no note at all. *)
Definition silent_folder : Folder :=
  {| isdir := true;
     listdir := ["a.mid"%string];
     read_midi := λ _, Some {| ticks_per_beat := 480;
                                tracks := [[set_tempo 400000 0]] |} |}.




(** A corpus with one voice, which plays 60, 62, 60, 64: its table has
    entries and its pool is the list of those four pitches. *)
Definition one_voice : odict Z NoteSeq :=
  [(0, [(60, 96); (62, 48); (60, 24); (64, 24)])].

Example one_voice_first_onset :
  build_markov_models one_voice !! 0
  = Some [(Some 60, [(62, 1); (64, 1)]); (Some 62, [(60, 1)])]
  ∧ (λ r, match r with
          | Ok (st, g) => Some (events_by_ch st !! 0, last_note st !! 0, g)
          | Raise _ => None
          end)
      (gen_step (select_channels one_voice) (build_markov_models one_voice)
         (fallback_pools one_voice) gen_init 0 [0%Q; 0%Q; 0.3%Q; 0.8%Q])
    = Some (Some [(0, note_on 0 62 96 0); (240, note_off 0 62 0 0)], Some 62,
            [0.8%Q]).
Proof. split; vm_compute; reflexivity. Qed.

(** The first step on [one_voice]: voice 0 has no last pitch yet, its built
    table has no key [None], and the pitch of the onset is [random.choice]
    of the pool 60, 62, 60, 64. *)
Lemma first_onset_uses_fallback_witness :
  select_channels one_voice !! (0 mod length (select_channels one_voice))%nat
  = Some 0
  ∧ last_note gen_init !! 0 = None
  ∧ build_markov_models one_voice !! 0
    = Some [(Some 60, [(62, 1); (64, 1)]); (Some 62, [(60, 1)])]
  ∧ od_get None (default [] (build_markov_models one_voice !! 0)) = None
  ∧ fallback_pools one_voice !! 0 = Some [60; 62; 60; 64]
  ∧ ∃ st' g',
      gen_step (select_channels one_voice) (build_markov_models one_voice)
        (fallback_pools one_voice) gen_init 0 [0%Q; 0%Q; 0.3%Q; 0.8%Q]
      = Ok (st', g')
      ∧ (st' = gen_init
         ∨ ∃ d note,
             st' = emit 0 note 0 (d * GRID) gen_init
             ∧ (note, g') = rnd_choice [60; 62; 60; 64] [0.3%Q; 0.8%Q]
             ∧ note ∈ [60; 62; 60; 64]).
Proof.
  assert (select_channels one_voice
            !! (0 mod length (select_channels one_voice))%nat = Some 0)
    as Hch by reflexivity.
  assert (last_note gen_init !! 0 = None) as Hlast by reflexivity.
  assert (build_markov_models one_voice !! 0
          = Some [(Some 60, [(62, 1); (64, 1)]); (Some 62, [(60, 1)])])
    as Hmodel by reflexivity.
  assert (fallback_pools one_voice !! 0 = Some [60; 62; 60; 64]) as Hpool
    by reflexivity.
  destruct (first_onset_uses_fallback one_voice gen_init 0
              [0%Q; 0%Q; 0.3%Q; 0.8%Q] 0 Hch Hlast)
    as (Hnone & _ & st' & g' & Hstep & Hcase).
  split; [exact Hch|]. split; [exact Hlast|]. split; [exact Hmodel|].
  split; [exact (Hnone 0)|]. split; [exact Hpool|].
  exists st', g'. split; [exact Hstep|].
  destruct Hcase as [->|(d & note & -> & _ & Hcase)]; [by left|right].
  exists d, note. split; [reflexivity|].
  rewrite Hpool in Hcase. simpl in Hcase.
  destruct Hcase as [[Hnil _]|(_ & Hdraw & Hin)]; [discriminate Hnil|].
  split; [exact Hdraw | exact Hin].
Defined.

(** The same two files, listed in two different orders. *)
Definition read_two (name : string) : option MidiFile :=
  if String.eqb name "a.mid" then Some demo_file
  else if String.eqb name "b.MID" then Some zero_length_note_file
  else None.

Definition folder_ab : Folder :=
  {| isdir := true; listdir := ["a.mid"; "notes.txt"; "b.MID"]%string;
     read_midi := read_two |}.

Definition folder_ba : Folder :=
  {| isdir := true; listdir := ["b.MID"; "a.mid"; "notes.txt"]%string;
     read_midi := read_two |}.

Example load_midis_sorted :
  load_midis folder_ba = [demo_file; zero_length_note_file].
Proof. reflexivity. Qed.

(** Both listings give the same run. *)
Lemma pipeline_deterministic_witness :
  isdir folder_ab = isdir folder_ba
  ∧ listdir folder_ab ≡ₚ listdir folder_ba
  ∧ (∀ name, read_midi folder_ab name = read_midi folder_ba name)
  ∧ main folder_ab [0.1%Q; 0.5%Q; 0.9%Q] = main folder_ba [0.1%Q; 0.5%Q; 0.9%Q].
Proof.
  assert (listdir folder_ab ≡ₚ listdir folder_ba) as Hp.
  { simpl. etrans; [apply perm_skip, perm_swap | apply perm_swap]. }
  split; [reflexivity|]. split; [exact Hp|]. split; [reflexivity|].
  apply (pipeline_deterministic folder_ab folder_ba [0.1%Q; 0.5%Q; 0.9%Q]
           eq_refl Hp (λ _, eq_refl)).
Defined.

Example gen_loop_three_steps :
  (λ r, match r with
        | Ok (st, g) =>
            Some (active_until st !! 0, active_until st !! 1,
                  active_until st !! 2, events_by_ch st !! 2, g)
        | Raise _ => None
        end)
    (gen_loop (select_channels []) ∅ (fallback_pools []) 3
       [0%Q; 0.99%Q; 0.7%Q; 0.2%Q; 0.5%Q])
  = Some (Some 960, None, Some 960,
          Some [(480, note_on 2 60 96 0); (960, note_off 2 60 0 0)], []).
Proof. vm_compute. reflexivity. Qed.

(** The bound at tick 480 after three steps of the run above. *)
Lemma global_polyphony_ceiling_witness :
  (Z.of_nat 3 - 1) * GRID ≤ 480
  ∧ ∃ st g',
      gen_loop (select_channels []) ∅ (fallback_pools []) 3
        [0%Q; 0.99%Q; 0.7%Q; 0.2%Q; 0.5%Q] = Ok (st, g')
      ∧ global_active (active_until st) 480 ≤ MAX_GLOBAL_POLY.
Proof.
  assert ((Z.of_nat 3 - 1) * GRID ≤ 480) as Ht by (unfold GRID; lia).
  split; [exact Ht|].
  destruct (global_polyphony_ceiling [] ∅ 3 [0%Q; 0.99%Q; 0.7%Q; 0.2%Q; 0.5%Q])
    as [(st & g' & Hrun & Hbound) _].
  exists st, g'. split; [exact Hrun | exact (Hbound 480 Ht)].
Defined.

(** A state in which voice 0 is busy until tick 240. *)
Definition busy_state : GenState :=
  {| events_by_ch := ∅; active_until := {[0 := 240]}; last_note := ∅ |}.

(** Step 0 finds voice 0 busy: nothing changes, for voice 1 in particular. *)
Lemma round_robin_no_overlap_witness :
  1 ≠ 0
  ∧ Z.of_nat 0 * GRID < default 0 (active_until busy_state !! 0)
  ∧ ∃ st' g',
      gen_step (select_channels []) ∅ (fallback_pools []) busy_state 0
        [0%Q; 0%Q] = Ok (st', g')
      ∧ st' = busy_state
      ∧ events_by_ch st' !! 1 = events_by_ch busy_state !! 1.
Proof.
  assert (1 ≠ 0) as Hne by discriminate.
  assert (Z.of_nat 0 * GRID < default 0 (active_until busy_state !! 0)) as Hbusy
    by reflexivity.
  split; [exact Hne|]. split; [exact Hbusy|].
  destruct (proj1 (round_robin_no_overlap [] ∅ 0 [0%Q; 0%Q]) busy_state)
    as (ch & st' & g' & Hch & Hstep & Hother & Hidle).
  assert (ch = 0) as -> by (injection Hch as <-; reflexivity).
  exists st', g'. split; [exact Hstep|].
  split; [exact (Hidle Hbusy) | exact (proj1 (Hother 1 Hne))].
Defined.

(** The table of the two-note sequence 60, 62 and the model of a corpus with
    that one voice. *)
Lemma build_trans_counts_pairs_witness :
  od_get (Some 60) (build_trans [(60, 1); (62, 1)]) = Some [(62, 1)]
  ∧ [(62, 1)] ≠ ([] : Counter)
  ∧ 0 ∈ od_keys [(0, [(60, 1); (62, 1)])]
  ∧ is_Some (build_markov_models [(0, [(60, 1); (62, 1)])] !! 0).
Proof.
  assert (od_get (Some 60) (build_trans [(60, 1); (62, 1)]) = Some [(62, 1)])
    as Hget by reflexivity.
  assert (0 ∈ od_keys [(0, [(60, 1); (62, 1)])]) as Hin by apply list_elem_of_here.
  destruct build_trans_counts_pairs as (_ & _ & Hnonempty & _ & _ & Hmodels).
  split; [exact Hget|]. split; [exact (Hnonempty _ _ _ Hget)|].
  split; [exact Hin | exact (proj1 (Hmodels _ 0) Hin)].
Defined.


(** * Further properties *)

(** ** Dictionaries stay dictionaries *)

Section OrderedDictInvariants.
Context {K V : Type} `{EqDecision K}.
Implicit Types (k : K) (v : V) (d : odict K V).

Lemma od_keys_fmap d : od_keys d = d.*1.
Proof. unfold od_keys. induction d as [|kv d IH]; simpl; by f_equal. Qed.

Lemma od_get_None_keys k d : od_get k d = None ↔ k ∉ od_keys d.
Proof.
  rewrite od_keys_fmap. induction d as [|[k' v'] d IH]; simpl.
  - split; [intros _; apply not_elem_of_nil | done].
  - rewrite not_elem_of_cons. destruct (decide (k = k')) as [->|Hne].
    + split; [done | tauto].
    + rewrite IH. tauto.
Qed.

Lemma od_get_Some_elem k v d : od_get k d = Some v → (k, v) ∈ d.
Proof.
  induction d as [|[k' v'] d IH]; simpl; [done|].
  destruct (decide (k = k')) as [->|Hne].
  - intros [= ->]. left.
  - intros Hg. right. by apply IH.
Qed.

Lemma od_elem_get k v d : NoDup (od_keys d) → (k, v) ∈ d → od_get k d = Some v.
Proof.
  rewrite od_keys_fmap. induction d as [|[k' v'] d IH]; simpl.
  - by intros _ ?%elem_of_nil.
  - intros [Hk Hd]%NoDup_cons [[= -> ->]|Hin]%elem_of_cons.
    + by rewrite decide_True.
    + rewrite decide_False; [by apply IH|].
      intros ->. apply Hk. apply list_elem_of_fmap. by exists (k', v).
Qed.

Lemma od_set_keys_in k v d :
  k ∈ od_keys d → od_keys (od_set k v d) = od_keys d.
Proof.
  unfold od_keys. induction d as [|[k' v'] d IH]; simpl.
  - by intros ?%elem_of_nil.
  - intros Hin. destruct (decide (k = k')) as [->|Hne]; simpl; [done|].
    f_equal. apply IH. apply elem_of_cons in Hin. tauto.
Qed.

Lemma od_set_keys_notin k v d :
  k ∉ od_keys d → od_keys (od_set k v d) = od_keys d ++ [k].
Proof.
  unfold od_keys. induction d as [|[k' v'] d IH]; simpl; [done|].
  intros Hin. apply not_elem_of_cons in Hin as [Hne Hin].
  rewrite decide_False by done. simpl. f_equal. by apply IH.
Qed.

Lemma od_set_NoDup k v d : NoDup (od_keys d) → NoDup (od_keys (od_set k v d)).
Proof.
  intros Hd. destruct (decide (k ∈ od_keys d)) as [Hin|Hin].
  - by rewrite od_set_keys_in.
  - rewrite od_set_keys_notin by done.
    apply NoDup_app. split; [done|]. split; [|apply NoDup_singleton].
    intros x Hx ->%list_elem_of_singleton. done.
Qed.

Lemma od_set_Forall (P : K * V → Prop) k v d :
  Forall P d → (∀ k', P (k', v)) → Forall P (od_set k v d).
Proof.
  intros Hd Hv. induction Hd as [|[k' v'] d Hkv Hd IH]; simpl.
  - by repeat constructor.
  - destruct (decide (k = k')); constructor; auto.
Qed.
End OrderedDictInvariants.

(** ** Extraction *)

(** A well-formed result: no voice is listed twice and every listed voice
    has at least one note. *)
Definition seqs_wf (s : odict Z NoteSeq) : Prop :=
  NoDup (od_keys s) ∧ Forall (λ kv, kv.2 ≠ []) s.

Lemma seqs_append_wf ch x s : seqs_wf s → seqs_wf (seqs_append ch x s).
Proof.
  intros [Hk Hne]. unfold seqs_append. split.
  - by apply od_set_NoDup.
  - apply od_set_Forall; [done|]. intros k'. simpl. by destruct (default [] _).
Qed.

Lemma scan_event_wf tpb s ev :
  seqs_wf (sc_seqs s) → seqs_wf (sc_seqs (scan_event tpb s ev)).
Proof.
  intros Hs.
  assert (∀ abs_t ch n, seqs_wf (sc_seqs (note_end tpb abs_t ch n s))) as Hend.
  { intros abs_t ch n. rewrite note_end_records.
    destruct (active s !! ch ≫= _); [by apply seqs_append_wf | done]. }
  destruct ev as [abs_t [ch n vel t|ch n vel t|tp t|ch p t|t]]; simpl; try done.
  destruct (0 <? vel); [done|]. by destruct (vel =? 0).
Qed.

(** One invariant of the scan carries over to the whole extraction. *)
Lemma extract_sequences_invariant (P : odict Z NoteSeq → Prop) :
  P [] →
  (∀ tpb s ev, P (sc_seqs s) → P (sc_seqs (scan_event tpb s ev))) →
  ∀ mids, P (seqs (extract_sequences mids)).
Proof.
  intros Hnil Hstep mids. unfold extract_sequences.
  assert (P (seqs extract_init)) as Hinit by done.
  revert Hinit. generalize extract_init.
  induction mids as [|mid mids IH]; intros e He; simpl; [done|].
  apply IH. unfold extract_file. simpl.
  set (s0 := {| active := ∅; sc_seqs := seqs e; sc_programs := programs e;
                sc_tempo := tempo e |}).
  assert (P (sc_seqs s0)) as Hs0 by done.
  revert Hs0. generalize s0. generalize (file_events mid).
  intros evs. induction evs as [|ev evs IHe]; intros s Hs; simpl; [done|].
  apply IHe, Hstep, Hs.
Qed.

(** X2: whatever the files hold, the extracted [seqs] lists no voice twice
    and gives every voice it lists at least one note. *)
Theorem extract_sequences_well_formed mids :
  NoDup (od_keys (seqs (extract_sequences mids)))
  ∧ Forall (λ kv, kv.2 ≠ []) (seqs (extract_sequences mids)).
Proof.
  apply (extract_sequences_invariant seqs_wf).
  - split; [apply NoDup_nil_2 | constructor].
  - intros tpb s ev. apply scan_event_wf.
Qed.

(** [s'] continues [s]: the voices of [s] come first and in the same order,
    and each voice's sequence in [s] is the beginning of its sequence in
    [s']. *)
Definition seqs_extends (s s' : odict Z NoteSeq) : Prop :=
  od_keys s `prefix_of` od_keys s'
  ∧ ∀ ch, default [] (od_get ch s) `prefix_of` default [] (od_get ch s').

Lemma seqs_extends_refl s : seqs_extends s s.
Proof. split; [done | intros ch; done]. Qed.

Lemma seqs_extends_trans s1 s2 s3 :
  seqs_extends s1 s2 → seqs_extends s2 s3 → seqs_extends s1 s3.
Proof.
  intros [Hk1 Hs1] [Hk2 Hs2]. split; [by etrans|].
  intros ch. etrans; [apply Hs1 | apply Hs2].
Qed.

Lemma seqs_append_extends ch x s : seqs_extends s (seqs_append ch x s).
Proof.
  unfold seqs_append. split.
  - destruct (decide (ch ∈ od_keys s)) as [Hin|Hin].
    + by rewrite od_set_keys_in.
    + rewrite od_set_keys_notin by done. by apply prefix_app_r.
  - intros ch'. destruct (decide (ch = ch')) as [<-|Hne].
    + rewrite od_get_set_eq. simpl. by apply prefix_app_r.
    + by rewrite od_get_set_ne.
Qed.

Lemma scan_event_extends tpb s ev :
  seqs_extends (sc_seqs s) (sc_seqs (scan_event tpb s ev)).
Proof.
  assert (∀ abs_t ch n,
            seqs_extends (sc_seqs s) (sc_seqs (note_end tpb abs_t ch n s)))
    as Hend.
  { intros abs_t ch n. rewrite note_end_records.
    destruct (active s !! ch ≫= _);
      [apply seqs_append_extends | apply seqs_extends_refl]. }
  destruct ev as [abs_t [ch n vel t|ch n vel t|tp t|ch p t|t]]; simpl;
    try apply seqs_extends_refl; try apply Hend.
  destruct (0 <? vel); [apply seqs_extends_refl|].
  destruct (vel =? 0); [apply Hend | apply seqs_extends_refl].
Qed.

Lemma extract_file_extends e mid : seqs_extends (seqs e) (seqs (extract_file e mid)).
Proof.
  unfold extract_file. simpl.
  set (s0 := {| active := ∅; sc_seqs := seqs e; sc_programs := programs e;
                sc_tempo := tempo e |}).
  change (seqs e) with (sc_seqs s0). generalize s0. generalize (file_events mid).
  intros evs. induction evs as [|ev evs IH]; intros s; simpl.
  - apply seqs_extends_refl.
  - eapply seqs_extends_trans; [apply scan_event_extends | apply IH].
Qed.

(** X3: processing further files only appends: the voices found so far keep
    their places at the front of [seqs], and every voice's sequence so far
    is the beginning of its final sequence. *)
Theorem extract_sequences_appends mids more :
  od_keys (seqs (extract_sequences mids))
    `prefix_of` od_keys (seqs (extract_sequences (mids ++ more)))
  ∧ ∀ ch,
      default [] (od_get ch (seqs (extract_sequences mids)))
        `prefix_of`
      default [] (od_get ch (seqs (extract_sequences (mids ++ more)))).
Proof.
  change (seqs_extends (seqs (extract_sequences mids))
            (seqs (extract_sequences (mids ++ more)))).
  unfold extract_sequences. rewrite fold_left_app.
  generalize (fold_left extract_file mids extract_init). intros e.
  revert e. induction more as [|mid more IH]; intros e; simpl.
  - apply seqs_extends_refl.
  - eapply seqs_extends_trans; [apply extract_file_extends | apply IH].
Qed.

(** ** Transition tables *)

Section OrderedDictSums.
Context {K V : Type} `{EqDecision K} (f : V → Z).

(** The sum of [f] over the values of a dictionary. *)
Definition od_sum (d : odict K V) : Z := foldr (λ kv acc, f kv.2 + acc) 0 d.

Lemma od_sum_set k v (d : odict K V) :
  od_sum (od_set k v d) = od_sum d - default 0 (f <$> od_get k d) + f v.
Proof.
  induction d as [|[k' v'] d IH]; simpl; [lia|].
  destruct (decide (k = k')) as [->|Hne]; simpl; [lia|]. rewrite IH. lia.
Qed.
End OrderedDictSums.

(** The number of transitions a table has counted. *)
Definition counter_total (c : Counter) : Z := od_sum (λ n, n) c.
Definition trans_total (t : Trans) : Z := od_sum counter_total t.

Lemma trans_total_bump cur nxt t : trans_total (bump cur nxt t) = trans_total t + 1.
Proof.
  unfold trans_total, bump. rewrite od_sum_set.
  unfold counter_total at 3. rewrite od_sum_set.
  destruct (od_get (Some cur) t) as [c|]; simpl.
  - fold (counter_total c). destruct (od_get nxt c); simpl; lia.
  - lia.
Qed.

(** X4: the counts of a voice's table add up to the number of adjacent
    pairs of its sequence, [len(arr) - 1] (0 for an empty sequence). *)
Theorem build_trans_total arr :
  trans_total (build_trans arr) = Z.of_nat (length arr - 1).
Proof.
  change (build_trans arr) with (trans_prefix arr (length arr - 1)).
  induction (length arr - 1)%nat as [|n IH]; [done|].
  rewrite trans_prefix_S, trans_total_bump, IH. lia.
Qed.

Lemma pair_count_pos_elem arr a b n :
  (n ≤ length arr - 1)%nat → (0 < pair_count arr a b n)%nat →
  a ∈ arr.*1 ∧ b ∈ arr.*1.
Proof.
  intros Hn Hpos. unfold pair_count in Hpos.
  destruct (filter _ (seq 0 n)) as [|i l] eqn:E; [simpl in Hpos; lia|].
  assert (i ∈ filter (λ i, pitch_at arr i = a ∧ pitch_at arr (S i) = b) (seq 0 n))
    as Hi by (rewrite E; left).
  apply list_elem_of_filter in Hi as [[Ha Hb] Hi].
  apply elem_of_seq in Hi.
  assert (∀ j, (j < length arr)%nat → pitch_at arr j ∈ arr.*1) as Hat.
  { intros j Hj. unfold pitch_at.
    destruct (lookup_lt_is_Some_2 arr j Hj) as [x Hx]. rewrite Hx. simpl.
    apply list_elem_of_fmap. exists x. split; [done|].
    by eapply list_elem_of_lookup_2. }
  split; [rewrite <- Ha | rewrite <- Hb]; apply Hat; lia.
Qed.

(** The pitches with an entry in a voice's table, and the successors listed
    for them, occur in the voice's sequence. *)
Lemma build_trans_pitches arr a c :
  od_get (Some a) (build_trans arr) = Some c →
  a ∈ arr.*1 ∧ ∀ b, b ∈ od_keys c → b ∈ arr.*1.
Proof.
  intros Hc.
  assert (∀ b, b ∈ od_keys c → a ∈ arr.*1 ∧ b ∈ arr.*1) as Hboth.
  { intros b Hb.
    destruct (od_get b c) as [n|] eqn:Hn;
      [|by apply od_get_None_keys in Hn].
    pose proof (entry_trans_prefix arr a b (length arr - 1)) as He.
    change (trans_prefix arr (length arr - 1)) with (build_trans arr) in He.
    unfold entry in He. rewrite Hc in He. simpl in He. rewrite Hn in He.
    unfold stored in He.
    destruct (pair_count arr a b (length arr - 1)) as [|m] eqn:Em; [done|].
    apply (pair_count_pos_elem arr a b (length arr - 1)); [done | lia]. }
  split; [|intros b Hb; by apply Hboth].
  destruct c as [|[b n] c'].
  - destruct (trans_prefix_keys arr (length arr - 1)) as [_ Hne].
    by apply Hne in Hc.
  - apply (Hboth b). unfold od_keys. simpl. left.
Qed.

(** X5: a voice's model only speaks of pitches the voice played: every
    pitch with an entry in its table, and every successor listed for that
    pitch, occurs in a sequence of that voice. *)
Theorem models_pitches_from_corpus (s : odict Z NoteSeq) ch t a c :
  build_markov_models s !! ch = Some t →
  od_get (Some a) t = Some c →
  ∃ arr, (ch, arr) ∈ s ∧ a ∈ arr.*1 ∧ ∀ b, b ∈ od_keys c → b ∈ arr.*1.
Proof.
  intros (arr & Hin & ->)%build_markov_models_lookup Hc.
  exists arr. split; [done|]. by apply build_trans_pitches.
Qed.

(** ** Ranking and sorting *)

Lemma Sorted_weaken {A} (R R' : A → A → Prop) l :
  (∀ a b, R a b → R' a b) → Sorted R l → Sorted R' l.
Proof.
  intros HR. induction 1 as [|x l Hl IH Hhd]; constructor; [done|].
  destruct Hhd; constructor; auto.
Qed.

Lemma StronglySorted_weaken {A} (R R' : A → A → Prop) l :
  (∀ a b, R a b → R' a b) → StronglySorted R l → StronglySorted R' l.
Proof.
  intros HR. induction 1 as [|x l Hl IH Hx]; constructor; [done|].
  eapply Forall_impl; [done | auto].
Qed.

Section StableSortMore.
Context {A : Type} (key : A → Z).

Lemma sort_by_key_perm l : sort_by_key key l ≡ₚ l.
Proof. apply stable_sort_perm. Qed.

Lemma sort_by_key_sorted l :
  StronglySorted (λ a b, key a ≤ key b) (sort_by_key key l).
Proof.
  apply Sorted_StronglySorted; [intros a b c; lia|].
  eapply Sorted_weaken; [|apply (stable_sort_Sorted (λ x y, key x <=? key y))].
  - intros a b Hab. simpl in Hab. lia.
  - intros x y. lia.
Qed.

Lemma insert_sorted_filter_key c x l :
  filter (λ a, key a = c) (insert_sorted (λ x y, key x <=? key y) x l)
  = filter (λ a, key a = c) (x :: l).
Proof.
  induction l as [|y l IH]; simpl; [done|].
  destruct (Z.leb_spec (key x) (key y)) as [Hle|Hgt]; [done|].
  rewrite filter_cons, IH, !filter_cons.
  repeat case_decide; try done. lia.
Qed.

(** Stability: elements with the same key keep their relative order. *)
Lemma sort_by_key_stable c l :
  filter (λ a, key a = c) (sort_by_key key l) = filter (λ a, key a = c) l.
Proof.
  unfold sort_by_key. induction l as [|x l IH]; simpl; [done|].
  by rewrite insert_sorted_filter_key, !filter_cons, IH.
Qed.

(** A list already in ascending key order is left as it is. *)
Lemma sort_by_key_ascending l :
  StronglySorted (λ a b, key a ≤ key b) l → sort_by_key key l = l.
Proof.
  unfold sort_by_key. induction 1 as [|x l Hl IH Hx]; simpl; [done|].
  rewrite IH. destruct l as [|y l']; simpl; [done|].
  apply Forall_cons in Hx as [Hxy _].
  by rewrite (proj2 (Z.leb_le _ _) Hxy).
Qed.
End StableSortMore.

(** The number of notes of a ranked voice. *)
Definition activity (kv : Z * NoteSeq) : nat := length kv.2.

(** The ranking [generate_events] computes before cutting it to
    [MAX_CHANNELS] voices. *)
Definition channel_activity (s : odict Z NoteSeq) : list (Z * NoteSeq) :=
  sort_by_key (λ kv, - Z.of_nat (length kv.2)) s.

Lemma select_channels_ranked s :
  select_channels s
  = if truthy s then (take (Z.to_nat MAX_CHANNELS) (channel_activity s)).*1
    else [0; 1; 2; 3].
Proof.
  unfold select_channels.
  change (sort_by_key _ s) with (channel_activity s).
  assert (length (channel_activity s) = length s) as Hlen.
  { unfold channel_activity. by rewrite sort_by_key_perm. }
  destruct (channel_activity s) as [|kv' l], s as [|kv s]; simpl in Hlen;
    try lia; done.
Qed.

Lemma select_channels_length s :
  (1 ≤ length (select_channels s) ≤ Z.to_nat MAX_CHANNELS)%nat.
Proof.
  rewrite select_channels_ranked.
  assert (length (channel_activity s) = length s) as Hlen.
  { unfold channel_activity. by rewrite sort_by_key_perm. }
  destruct s as [|kv s]; cbn [truthy].
  - simpl. unfold MAX_CHANNELS. lia.
  - rewrite length_fmap, length_take, Hlen. cbn [length]. unfold MAX_CHANNELS. lia.
Qed.

(** X6: the selected voices are the [MAX_CHANNELS] most active ones (all of
    them when there are fewer): they are the front of a reordering of
    [seqs] in which no voice has fewer notes than a later one; with an
    empty [seqs] the voices are 0, 1, 2, 3. *)
Theorem select_channels_most_active (s : odict Z NoteSeq) :
  ∃ act rest,
    act ++ rest ≡ₚ s
    ∧ StronglySorted (λ a b, (activity b ≤ activity a)%nat) (act ++ rest)
    ∧ length act = (Z.to_nat MAX_CHANNELS `min` length s)%nat
    ∧ select_channels s = if truthy s then act.*1 else [0; 1; 2; 3].
Proof.
  exists (take (Z.to_nat MAX_CHANNELS) (channel_activity s)),
         (drop (Z.to_nat MAX_CHANNELS) (channel_activity s)).
  rewrite take_drop. split; [apply sort_by_key_perm|]. split; [|split].
  - eapply StronglySorted_weaken;
      [|apply (sort_by_key_sorted (λ kv, - Z.of_nat (length kv.2)))].
    intros a b Hab. unfold activity. simpl in Hab. lia.
  - rewrite length_take. unfold channel_activity.
    by rewrite sort_by_key_perm.
  - apply select_channels_ranked.
Qed.

(** X7: among voices with the same number of notes the ranking keeps the
    order in which they stand in [seqs], so ties at the cut are decided by
    that order. *)
Theorem channel_activity_ties_keep_order (s : odict Z NoteSeq) (c : nat) :
  filter (λ kv, activity kv = c) (channel_activity s)
  = filter (λ kv, activity kv = c) s
  ∧ select_channels s
    = if truthy s then (take (Z.to_nat MAX_CHANNELS) (channel_activity s)).*1
      else [0; 1; 2; 3].
Proof.
  split; [|apply select_channels_ranked].
  pose proof (sort_by_key_stable (λ kv : Z * NoteSeq, - Z.of_nat (length kv.2))
                (- Z.of_nat c) s) as Hst.
  unfold channel_activity, activity.
  erewrite (list_filter_iff _ (λ kv : Z * NoteSeq, - Z.of_nat (length kv.2) = - Z.of_nat c)).
  2: { intros kv. lia. }
  rewrite Hst. apply list_filter_iff. intros kv. lia.
Qed.

(** ** What the generator plays *)

Section GeneratedPitches.
Context {F G : Type} {HF : PyFloat F} {HR : RandomSource F G}.

(** Where the selector's answer comes from. *)
Lemma choose_note_known_pitch_aux trans_counter prev_note fallback_notes (g : G) :
  ∃ n g',
    choose_note trans_counter prev_note fallback_notes g = Ok (n, g')
    ∧ ((trans_counter ≠ [] ∧ n ∈ od_keys trans_counter)
       ∨ (trans_counter = [] ∧ fallback_notes ≠ [] ∧ n ∈ fallback_notes)
       ∨ (trans_counter = [] ∧ fallback_notes = [] ∧ n = 60))
    ∧ (g' = g ∨ g' = (rnd_random g).2 ∨ g' = (rnd_choice fallback_notes g).2).
Proof.
  destruct trans_counter as [|c0 rest].
  - destruct fallback_notes as [|x pool].
    + exists 60, g. split; [done|]. split; [by right; right | by left].
    + exists (rnd_choice (x :: pool) g).1, (rnd_choice (x :: pool) g).2.
      split; [|split].
      * unfold choose_note, gdraw. simpl. by rewrite <- surjective_pairing.
      * right. left. split; [done|]. split; [done|]. by apply rnd_choice_in.
      * by right; right.
  - pose proof (choose_note_table c0 rest prev_note fallback_notes g) as Hc.
    cbv zeta in Hc.
    destruct (choose_note_table_elem c0 rest prev_note fallback_notes g)
      as (n & g' & Hn & Hin).
    exists n, g'. split; [done|]. split.
    + left. split; [done|]. by rewrite od_keys_fmap.
    + destruct (f_le _ _).
      * rewrite Hc in Hn. injection Hn as _ <-. by left.
      * destruct Hc as (n' & Hn' & _). rewrite Hn' in Hn.
        injection Hn as _ <-. right. by left.
Qed.

(** X8: the selector never invents a pitch: its answer is a candidate of
    the table when the table has one, else an element of the pool when the
    pool has one, else 60; and it draws from the random source at most
    once. *)
Theorem choose_note_known_pitch trans_counter prev_note fallback_notes (g : G) :
  ∃ n g',
    choose_note trans_counter prev_note fallback_notes g = Ok (n, g')
    ∧ ((trans_counter ≠ [] ∧ n ∈ od_keys trans_counter)
       ∨ (trans_counter = [] ∧ fallback_notes ≠ [] ∧ n ∈ fallback_notes)
       ∨ (trans_counter = [] ∧ fallback_notes = [] ∧ n = 60))
    ∧ (g' = g ∨ g' = (rnd_random g).2 ∨ g' = (rnd_choice fallback_notes g).2).
Proof.
  destruct (choose_note_known_pitch_aux trans_counter prev_note fallback_notes g)
    as (n & g' & Hn & Hcase & Hdraw).
  by exists n, g'.
Qed.

(** The pitches voice [ch] may be given: those of its sequences, and 60
    when it has no note at all. *)
Definition corpus_pitch (s : odict Z NoteSeq) (ch p : Z) : Prop :=
  (∃ arr, (ch, arr) ∈ s ∧ p ∈ arr.*1)
  ∨ (p = 60 ∧ default [] (od_get ch s) = []).

Lemma pool_pitch (s : odict Z NoteSeq) ch p :
  p ∈ default [] (fallback_pools s !! ch) → ∃ arr, (ch, arr) ∈ s ∧ p ∈ arr.*1.
Proof.
  rewrite fallback_pools_lookup. case_decide; simpl; [|by intros ?%elem_of_nil].
  destruct (od_get ch s) as [arr|] eqn:E; simpl; [|by intros ?%elem_of_nil].
  intros Hp. exists arr. split; [by apply od_get_Some_elem | done].
Qed.

Lemma pool_empty (s : odict Z NoteSeq) ch :
  default [] (fallback_pools s !! ch) = [] → default [] (od_get ch s) = [].
Proof.
  rewrite fallback_pools_lookup. case_decide as Hin; simpl.
  - apply fmap_nil_inv.
  - intros _. apply od_get_None_keys in Hin. by rewrite Hin.
Qed.

Lemma onset_corpus_pitch (s : odict Z NoteSeq) st step (g : G) ch d note g' :
  onset (select_channels s) (build_markov_models s) (fallback_pools s)
    st step g ch d note g' →
  corpus_pitch s ch note.
Proof.
  intros (_ & _ & _ & _ & _ & Hnote).
  destruct (choose_note_known_pitch_aux
              (default [] (od_get (last_note st !! ch)
                             (default [] (build_markov_models s !! ch))))
              (last_note st !! ch) (default [] (fallback_pools s !! ch))
              (dur_draw (global_active (active_until st) (Z.of_nat step * GRID))
                 (rnd_random g).2).2)
    as (n & g1 & Hn & Hcase & _).
  rewrite Hn in Hnote. injection Hnote as -> ->.
  destruct Hcase as [[Hne Hin]|[(_ & _ & Hin)|(_ & Hpool & ->)]].
  - left.
    destruct (build_markov_models s !! ch) as [t|] eqn:Et; simpl in *;
      [|done].
    destruct (od_get (last_note st !! ch) t) as [c|] eqn:Ec; simpl in *;
      [|done].
    apply build_markov_models_lookup in Et as (arr & Harr & ->).
    destruct (last_note st !! ch) as [prev|];
      [|by rewrite build_trans_no_none_key in Ec].
    exists arr. split; [done|]. by apply (build_trans_pitches arr prev c).
  - left. by apply pool_pitch.
  - right. split; [done|]. by apply pool_empty.
Qed.
End GeneratedPitches.

Section GeneratedNotes.
Context {F G : Type} {HF : PyFloat F} {HR : RandomSource F G}.

(** X9: run on the models built from [seqs], the loop gives a voice only
    pitches of that voice's own sequences; pitch 60 is given only to a
    voice without any note. *)
Theorem generated_pitches_from_corpus (s : odict Z NoteSeq) (n : nat) (g : G) :
  ∃ st g',
    gen_loop (select_channels s) (build_markov_models s) (fallback_pools s) n g
    = Ok (st, g')
    ∧ ∀ ch,
        Forall (λ ev, ∃ p, msg_pitch ev.2 = Some p ∧ corpus_pitch s ch p)
          (default [] (events_by_ch st !! ch)).
Proof.
  apply (gen_loop_invariant
           (λ _ st, ∀ ch,
              Forall (λ ev, ∃ p, msg_pitch ev.2 = Some p ∧ corpus_pitch s ch p)
                (default [] (events_by_ch st !! ch)))).
  - apply select_channels_nonempty.
  - intros ch. simpl. rewrite lookup_empty. constructor.
  - done.
  - intros k st g0 ch d note g' Hst Hon ch'. simpl.
    destruct (decide (ch = ch')) as [<-|Hne].
    + rewrite lookup_insert_eq. simpl. apply Forall_app. split; [apply Hst|].
      pose proof (onset_corpus_pitch _ _ _ _ _ _ _ _ Hon) as Hp.
      repeat constructor; by exists note.
    + rewrite lookup_insert_ne by done. apply Hst.
Qed.

(** A note of voice [ch] that starts on the tick of one of the first [n]
    steps, at a step whose round-robin voice is [ch]. *)
Definition in_slot (channels : list Z) (ch : Z) (n : nat) (sp : Span) : Prop :=
  ∃ k, (k < n)%nat
       ∧ sp_start sp = Z.of_nat k * GRID
       ∧ channels !! (k mod length channels)%nat = Some ch.

Definition voice_slots (channels : list Z) (n : nat) (st : GenState) (ch : Z)
  : Prop :=
  ∃ notes,
    default [] (events_by_ch st !! ch) = voice_events ch notes
    ∧ Forall (in_slot channels ch n) notes
    ∧ (length notes ≤ n)%nat
    ∧ last_note st !! ch = sp_pitch <$> last notes.

Lemma voice_slots_idle channels n st ch :
  voice_slots channels n st ch → voice_slots channels (S n) st ch.
Proof.
  intros (notes & Hev & Hslot & Hlen & Hlast). exists notes.
  split; [done|]. split; [|split; [lia | done]].
  eapply Forall_impl; [done|]. intros sp (k & Hk & Hs & Hc).
  exists k. split; [lia | done].
Qed.

Lemma voice_slots_emit channels models fallback_notes st n (g : G)
    ch d note g' ch' :
  onset channels models fallback_notes st n g ch d note g' →
  voice_slots channels n st ch' →
  voice_slots channels (S n)
    (emit ch note (Z.of_nat n * GRID) (d * GRID) st) ch'.
Proof.
  intros Hon Hv. destruct (decide (ch = ch')) as [<-|Hne].
  - destruct Hon as (Hch & _). destruct Hv as (notes & Hev & Hslot & Hlen & _).
    exists (notes ++ [{| sp_start := Z.of_nat n * GRID;
                         sp_end := Z.of_nat n * GRID + d * GRID;
                         sp_pitch := note |}]).
    simpl. rewrite !lookup_insert_eq. simpl. split; [|split; [|split]].
    + unfold voice_events. by rewrite Hev, fmap_app, concat_app.
    + apply Forall_app. split.
      * eapply Forall_impl; [done|]. intros sp (k & Hk & Hs & Hc).
        exists k. split; [lia | done].
      * repeat constructor. exists n. split; [lia | done].
    + rewrite length_app. simpl. lia.
    + by rewrite last_snoc.
  - apply voice_slots_idle in Hv. destruct Hv as (notes & Hev & Hrest).
    exists notes. simpl. by rewrite !lookup_insert_ne.
Qed.

(** X10: after [n] steps every voice's events are note pairs, at most [n]
    of them, each starting on the tick [k * GRID] of a step [k < n] whose
    round-robin voice it is; the voice's last pitch is the pitch of its last
    note; a voice that is not selected has no event. *)
Theorem notes_start_on_own_steps (s : odict Z NoteSeq) (models : gmap Z Trans)
    (n : nat) (g : G) :
  ∃ st g',
    gen_loop (select_channels s) models (fallback_pools s) n g = Ok (st, g')
    ∧ ∀ ch, ∃ notes,
        default [] (events_by_ch st !! ch) = voice_events ch notes
        ∧ Forall (in_slot (select_channels s) ch n) notes
        ∧ (length notes ≤ n)%nat
        ∧ last_note st !! ch = sp_pitch <$> last notes
        ∧ (ch ∉ select_channels s → notes = []).
Proof.
  destruct (gen_loop_invariant
              (λ n st, ∀ ch, voice_slots (select_channels s) n st ch)
              (select_channels s) models (fallback_pools s)
              (select_channels_nonempty s))
    with (n := n) (g := g) as (st & g' & Hrun & Hst).
  - intros ch. by exists [].
  - intros k st Hst ch. by apply voice_slots_idle.
  - intros k st g0 ch d note g' Hst Hon ch'. by eapply voice_slots_emit.
  - exists st, g'. split; [done|]. intros ch.
    destruct (Hst ch) as (notes & Hev & Hslot & Hlen & Hlast).
    exists notes. repeat (split; [done|]).
    intros Hnot. destruct notes as [|sp notes']; [done|].
    apply Forall_cons in Hslot as [(k & _ & _ & Hk) _].
    exfalso. apply Hnot. by eapply list_elem_of_lookup_2.
Qed.
End GeneratedNotes.

(** ** Output assembly *)

(** Ticks that never go back, starting at or after [t0]. *)
Fixpoint ticks_ascend (t0 : Z) (evs : list (Z * Msg)) : Prop :=
  match evs with
  | [] => True
  | ev :: evs' => t0 ≤ ev.1 ∧ ticks_ascend ev.1 evs'
  end.

Lemma msg_time_set_time t m : msg_time (set_time t m) = t.
Proof. by destruct m. Qed.

Lemma set_time_set_time t t' m : set_time t (set_time t' m) = set_time t m.
Proof. by destruct m. Qed.

Lemma delta_times_messages t0 evs :
  set_time 0 <$> delta_times t0 evs = set_time 0 <$> evs.*2.
Proof.
  revert t0. induction evs as [|[t m] evs IH]; intros t0; simpl; [done|].
  by rewrite set_time_set_time, IH.
Qed.

Lemma delta_times_nonneg t0 evs :
  Forall (λ m, 0 ≤ msg_time m) (delta_times t0 evs).
Proof.
  revert t0. induction evs as [|[t m] evs IH]; intros t0; simpl; constructor.
  - rewrite msg_time_set_time. lia.
  - apply IH.
Qed.

Lemma abs_events_messages t0 tr : (abs_events t0 tr).*2 = tr.
Proof.
  revert t0. induction tr as [|m tr IH]; intros t0; simpl; [done|].
  by rewrite IH.
Qed.

Lemma abs_delta_ticks t0 evs :
  ticks_ascend t0 evs → (abs_events t0 (delta_times t0 evs)).*1 = evs.*1.
Proof.
  revert t0. induction evs as [|[t m] evs IH]; intros t0; simpl; [done|].
  intros [Ht Hasc]. rewrite msg_time_set_time.
  replace (t0 + Z.max 0 (t - t0)) with t by lia. by rewrite IH.
Qed.

(** X11: delta times encode absolute ticks faithfully when the events are
    in ascending tick order from [t0] on: accumulating the written delta
    times gives back every event's tick, and the messages are the same up to
    their time field. *)
Theorem delta_times_round_trip t0 evs :
  ticks_ascend t0 evs →
  (abs_events t0 (delta_times t0 evs)).*1 = evs.*1
  ∧ set_time 0 <$> (abs_events t0 (delta_times t0 evs)).*2
    = set_time 0 <$> evs.*2.
Proof.
  intros Hasc. split; [by apply abs_delta_ticks|].
  by rewrite abs_events_messages, delta_times_messages.
Qed.

Lemma ticks_ascend_sorted t0 evs :
  ticks_ascend t0 evs → StronglySorted (λ a b, a.1 ≤ b.1) evs.
Proof.
  intros Hasc. apply Sorted_StronglySorted; [intros a b c; lia|].
  revert t0 Hasc. induction evs as [|ev evs IH]; intros t0; simpl.
  - constructor.
  - intros [_ Hasc]. constructor; [by eapply IH|].
    destruct evs as [|ev' evs']; constructor. by destruct Hasc.
Qed.

Lemma make_track_shape events progs ch :
  make_track events progs ch
  = program_change ch (default 6 (progs !! ch)) 0
    :: delta_times 0 (sort_by_key fst (default [] (events !! ch))).
Proof. unfold make_track. by destruct (default [] (events !! ch)). Qed.

Lemma write_midi_length events channels progs tpb tempo_ :
  length (tracks (write_midi events channels progs tpb tempo_)) = length channels.
Proof.
  unfold write_midi. simpl.
  rewrite <- (Permutation_length (sort_by_key_perm id channels)).
  rewrite <- (length_map (make_track events progs) (sort_by_key id channels)).
  by destruct (map _ _).
Qed.

(** X12: the written file has one track per voice of [channels], in
    ascending voice order, also for a voice without events; a track opens
    with the voice's program change (program 6 when none is known), after
    the tempo marker in the first track only, and continues with the voice's
    messages in tick order; no delta time is negative. *)
Theorem write_midi_tracks events channels progs tpb tempo_ :
  ∃ trs,
    tracks (write_midi events channels progs tpb tempo_)
    = match trs with
      | [] => []
      | tr0 :: rest => (set_tempo tempo_ 0 :: tr0) :: rest
      end
    ∧ length trs = length channels
    ∧ sort_by_key id channels ≡ₚ channels
    ∧ StronglySorted Z.le (sort_by_key id channels)
    ∧ Forall2
        (λ ch tr, ∃ body,
           tr = program_change ch (default 6 (progs !! ch)) 0 :: body
           ∧ set_time 0 <$> body
             = set_time 0 <$> (sort_by_key fst (default [] (events !! ch))).*2
           ∧ Forall (λ m, 0 ≤ msg_time m) body)
        (sort_by_key id channels) trs.
Proof.
  exists (map (make_track events progs) (sort_by_key id channels)).
  split; [done|]. split; [|split; [|split]].
  - by rewrite length_map, (Permutation_length (sort_by_key_perm id channels)).
  - apply sort_by_key_perm.
  - apply (sort_by_key_sorted id).
  - induction (sort_by_key id channels) as [|ch chs IH]; simpl; constructor;
      [|done].
    eexists. split; [apply make_track_shape|].
    split; [apply delta_times_messages | apply delta_times_nonneg].
Qed.

(** ** Loading *)

(** What one name contributes to the loaded list. *)
Definition loaded_from (folder : Folder) (name : string) : list MidiFile :=
  if is_midi_name name then option_list (read_midi folder name) else [].

Lemma load_midis_bind folder :
  load_midis folder
  = if isdir folder
    then stable_sort String.leb (listdir folder) ≫= loaded_from folder
    else [].
Proof.
  unfold load_midis. destruct (isdir folder); simpl; [|done].
  cut (∀ names acc,
         fold_left
           (λ mids name,
              if is_midi_name name then
                match read_midi folder name with
                | Some mid => mids ++ [mid]
                | None => mids
                end
              else mids) names acc
         = acc ++ (names ≫= loaded_from folder)).
  { intros Hc. by rewrite Hc. }
  induction names as [|name names IH]; intros acc; simpl.
  - by rewrite app_nil_r.
  - rewrite IH. unfold loaded_from at 2.
    destruct (is_midi_name name); [|done].
    destruct (read_midi folder name); simpl; [|done].
    by rewrite <- app_assoc.
Qed.

(** *** The name test *)

Lemma string_length_app (s1 s2 : string) :
  String.length (String.append s1 s2) = (String.length s1 + String.length s2)%nat.
Proof. induction s1 as [|c s1 IH]; simpl; [done | by rewrite IH]. Qed.

Lemma substring_whole (s : string) : String.substring 0 (String.length s) s = s.
Proof. induction s as [|c s IH]; simpl; [done | by rewrite IH]. Qed.

Lemma substring_after (s1 s2 : string) :
  String.substring (String.length s1) (String.length s2) (String.append s1 s2) = s2.
Proof. induction s1 as [|c s1 IH]; simpl; [apply substring_whole | done]. Qed.

Lemma substring_split (s : string) (a : nat) :
  (a ≤ String.length s)%nat →
  s = String.append (String.substring 0 a s)
        (String.substring a (String.length s - a) s).
Proof.
  revert a. induction s as [|c s IH]; intros [|a] Ha; simpl in *; try lia.
  - done.
  - by rewrite substring_whole.
  - change (String c s = String c (String.append (String.substring 0 a s)
              (String.substring a (String.length s - a) s))).
    f_equal. apply IH. lia.
Qed.

Lemma endswith_iff (s suffix : string) :
  endswith s suffix = true ↔ ∃ stem, s = String.append stem suffix.
Proof.
  unfold endswith. rewrite andb_true_iff, Nat.leb_le, String.eqb_eq. split.
  - intros [Hle Hsub].
    exists (String.substring 0 (String.length s - String.length suffix) s).
    pose proof (substring_split s (String.length s - String.length suffix))
      as Hs.
    replace (String.length s - (String.length s - String.length suffix))%nat
      with (String.length suffix) in Hs by lia.
    rewrite Hsub in Hs. apply Hs. lia.
  - intros [stem ->]. rewrite string_length_app. split; [lia|].
    replace (String.length stem + String.length suffix - String.length suffix)%nat
      with (String.length stem) by lia.
    apply substring_after.
Qed.

Lemma lower_app (s1 s2 : string) :
  lower (String.append s1 s2) = String.append (lower s1) (lower s2).
Proof. induction s1 as [|c s1 IH]; simpl; [done | by rewrite IH]. Qed.

(** A lower-cased name ends in [suffix] exactly when the name ends in a
    string that lower-cases to [suffix]. *)
Lemma lower_ends (name stem' suffix : string) :
  lower name = String.append stem' suffix →
  ∃ stem ext, name = String.append stem ext ∧ lower ext = suffix.
Proof.
  revert name. induction stem' as [|c stem' IH]; intros name; simpl.
  - intros Hl. by exists EmptyString, name.
  - destruct name as [|c0 name]; simpl; [done|].
    intros [= _ Hl]. destruct (IH _ Hl) as (stem & ext & -> & Hext).
    by exists (String c0 stem), ext.
Qed.

(** Which characters lower-case to the four of the suffix. *)
Lemma lower_ascii_dot c : lower_ascii c = "."%char ↔ c = "."%char.
Proof.
  destruct c as [[] [] [] [] [] [] [] []]; vm_compute;
    split; intros Hc; first [reflexivity | discriminate Hc].
Qed.

Lemma lower_ascii_m c : lower_ascii c = "m"%char ↔ c = "m"%char ∨ c = "M"%char.
Proof.
  destruct c as [[] [] [] [] [] [] [] []]; vm_compute;
    split; intros Hc;
    first [reflexivity | discriminate Hc | by left | by right
          | by destruct Hc as [Hc|Hc]; discriminate Hc].
Qed.

Lemma lower_ascii_i c : lower_ascii c = "i"%char ↔ c = "i"%char ∨ c = "I"%char.
Proof.
  destruct c as [[] [] [] [] [] [] [] []]; vm_compute;
    split; intros Hc;
    first [reflexivity | discriminate Hc | by left | by right
          | by destruct Hc as [Hc|Hc]; discriminate Hc].
Qed.

Lemma lower_ascii_d c : lower_ascii c = "d"%char ↔ c = "d"%char ∨ c = "D"%char.
Proof.
  destruct c as [[] [] [] [] [] [] [] []]; vm_compute;
    split; intros Hc;
    first [reflexivity | discriminate Hc | by left | by right
          | by destruct Hc as [Hc|Hc]; discriminate Hc].
Qed.

Lemma lower_is_mid (ext : string) :
  lower ext = ".mid"%string
  ↔ ∃ m i d,
      (m = "m"%char ∨ m = "M"%char) ∧ (i = "i"%char ∨ i = "I"%char)
      ∧ (d = "d"%char ∨ d = "D"%char)
      ∧ ext = String "." (String m (String i (String d EmptyString))).
Proof.
  split.
  - destruct ext as [|c1 [|c2 [|c3 [|c4 [|c5 ext]]]]]; simpl; try done.
    intros [= H1 H2 H3 H4].
    apply (proj1 (lower_ascii_dot _)) in H1.
    apply (proj1 (lower_ascii_m _)) in H2.
    apply (proj1 (lower_ascii_i _)) in H3.
    apply (proj1 (lower_ascii_d _)) in H4.
    rewrite H1. by exists c2, c3, c4.
  - intros (m & i & d & Hm & Hi & Hd & ->).
    apply (proj2 (lower_ascii_m _)) in Hm. apply (proj2 (lower_ascii_i _)) in Hi.
    apply (proj2 (lower_ascii_d _)) in Hd.
    simpl. rewrite Hm, Hi, Hd. by rewrite (proj2 (lower_ascii_dot _) eq_refl).
Qed.

Lemma lower_is_midi (ext : string) :
  lower ext = ".midi"%string
  ↔ ∃ m i d i',
      (m = "m"%char ∨ m = "M"%char) ∧ (i = "i"%char ∨ i = "I"%char)
      ∧ (d = "d"%char ∨ d = "D"%char) ∧ (i' = "i"%char ∨ i' = "I"%char)
      ∧ ext = String "." (String m (String i (String d (String i' EmptyString)))).
Proof.
  split.
  - destruct ext as [|c1 [|c2 [|c3 [|c4 [|c5 [|c6 ext]]]]]]; simpl; try done.
    intros [= H1 H2 H3 H4 H5].
    apply (proj1 (lower_ascii_dot _)) in H1.
    apply (proj1 (lower_ascii_m _)) in H2.
    apply (proj1 (lower_ascii_i _)) in H3.
    apply (proj1 (lower_ascii_d _)) in H4.
    apply (proj1 (lower_ascii_i _)) in H5.
    rewrite H1. by exists c2, c3, c4, c5.
  - intros (m & i & d & i' & Hm & Hi & Hd & Hi' & ->).
    apply (proj2 (lower_ascii_m _)) in Hm. apply (proj2 (lower_ascii_i _)) in Hi.
    apply (proj2 (lower_ascii_d _)) in Hd. apply (proj2 (lower_ascii_i _)) in Hi'.
    simpl. rewrite Hm, Hi, Hd, Hi'.
    by rewrite (proj2 (lower_ascii_dot _) eq_refl).
Qed.

(** The name test accepts exactly the names that end in a dot followed by
    the letters m, i, d or m, i, d, i, each in either case. *)
Lemma is_midi_name_iff (name : string) :
  is_midi_name name = true
  ↔ ∃ stem m i d,
      (m = "m"%char ∨ m = "M"%char) ∧ (i = "i"%char ∨ i = "I"%char)
      ∧ (d = "d"%char ∨ d = "D"%char)
      ∧ (name = String.append stem
                  (String "." (String m (String i (String d EmptyString))))
         ∨ ∃ i', (i' = "i"%char ∨ i' = "I"%char)
                 ∧ name = String.append stem
                            (String "." (String m (String i (String d
                               (String i' EmptyString)))))).
Proof.
  unfold is_midi_name. rewrite orb_true_iff, !endswith_iff. split.
  - intros [[stem' Hl]|[stem' Hl]];
      destruct (lower_ends _ _ _ Hl) as (stem & ext & -> & Hext).
    + apply (proj1 (lower_is_mid _)) in Hext as (m & i & d & Hm & Hi & Hd & ->).
      exists stem, m, i, d. repeat (split; [done|]). by left.
    + apply (proj1 (lower_is_midi _)) in Hext
        as (m & i & d & i' & Hm & Hi & Hd & Hi' & ->).
      exists stem, m, i, d. repeat (split; [done|]). right. by exists i'.
  - intros (stem & m & i & d & Hm & Hi & Hd & [->|(i' & Hi' & ->)]).
    + left. exists (lower stem). rewrite lower_app. f_equal.
      apply lower_is_mid. by exists m, i, d.
    + right. exists (lower stem). rewrite lower_app. f_equal.
      apply lower_is_midi. by exists m, i, d, i'.
Qed.

Lemma loaded_iff_name_test folder mid :
  mid ∈ load_midis folder
  ↔ isdir folder = true
    ∧ ∃ name, name ∈ listdir folder
              ∧ is_midi_name name = true
              ∧ read_midi folder name = Some mid.
Proof.
  rewrite load_midis_bind. destruct (isdir folder).
  - rewrite list_elem_of_bind. split.
    + intros (name & Hmid & Hname). split; [done|]. exists name.
      rewrite stable_sort_perm in Hname. split; [done|].
      unfold loaded_from in Hmid. destruct (is_midi_name name);
        [|by apply elem_of_nil in Hmid].
      split; [done|]. destruct (read_midi folder name); simpl in Hmid.
      * by apply list_elem_of_singleton in Hmid as ->.
      * by apply elem_of_nil in Hmid.
    + intros (_ & name & Hname & Hmidi & Hread). exists name.
      rewrite stable_sort_perm. split; [|done].
      unfold loaded_from. rewrite Hmidi, Hread. simpl. left.
  - split; [by intros ?%elem_of_nil | by intros [? _]].
Qed.

(** X13: the loaded files are exactly the files of the directory that
    [mido] can read and whose name ends in a dot followed by the letters
    m, i, d or m, i, d, i, each letter in either case; nothing is loaded from
    a path that is not a directory. *)
Theorem load_midis_elem folder mid :
  mid ∈ load_midis folder
  ↔ isdir folder = true
    ∧ ∃ name, name ∈ listdir folder
        ∧ read_midi folder name = Some mid
        ∧ ∃ stem m i d,
            (m = "m"%char ∨ m = "M"%char) ∧ (i = "i"%char ∨ i = "I"%char)
            ∧ (d = "d"%char ∨ d = "D"%char)
            ∧ (name = String.append stem
                        (String "." (String m (String i (String d EmptyString))))
               ∨ ∃ i', (i' = "i"%char ∨ i' = "I"%char)
                       ∧ name = String.append stem
                                  (String "." (String m (String i (String d
                                     (String i' EmptyString)))))).
Proof.
  rewrite loaded_iff_name_test. split.
  - intros (Hdir & name & Hname & Htest & Hread).
    apply (proj1 (is_midi_name_iff _)) in Htest. eauto.
  - intros (Hdir & name & Hname & Hread & Htest).
    apply (proj2 (is_midi_name_iff _)) in Htest. eauto.
Qed.

(** ** The whole run *)

Section WholeRun.
Context {F G : Type} {HF : PyFloat F} {HR : RandomSource F G}.

Lemma generate_events_channels models (s : odict Z NoteSeq) progs tpb tempo_ (g : G) :
  ∃ evs g',
    generate_events models s progs tpb tempo_ g = Ok ((evs, select_channels s), g').
Proof.
  unfold generate_events, gbind.
  destruct (gen_loop_invariant (λ _ _, True) (select_channels s) models
              (fallback_pools s) (select_channels_nonempty s) I
              (λ _ _ _, I) (λ _ _ _ _ _ _ _ _ _, I) (step_count tpb) g)
    as (st & g' & -> & _).
  by eexists _, _.
Qed.

(** X14: [main] writes nothing exactly when no file was loaded; otherwise
    the file it writes carries the ticks-per-beat of the last loaded file
    that states one (480 if none does), has between one and [MAX_CHANNELS]
    tracks, and opens its first track with the tempo found by extraction. *)
Theorem main_output (folder : Folder) (g : G) :
  ∃ out g',
    main folder g = Ok (out, g')
    ∧ match out with
      | None => load_midis folder = []
      | Some mid =>
          load_midis folder ≠ []
          ∧ ticks_per_beat mid = last_nonzero_tpb (load_midis folder)
          ∧ (1 ≤ length (tracks mid) ≤ Z.to_nat MAX_CHANNELS)%nat
          ∧ ∃ tr, head (tracks mid)
                  = Some (set_tempo (tempo (extract_sequences (load_midis folder))) 0
                          :: tr)
      end.
Proof.
  unfold main. destruct (load_midis folder) as [|mid0 mids] eqn:Eload.
  - by exists None, g.
  - cbn [truthy negb]. rewrite <- Eload. unfold gbind.
    set (e := extract_sequences (load_midis folder)).
    destruct (generate_events_channels (build_markov_models (seqs e)) (seqs e)
                (programs e) (ex_tpb e) (tempo e) g) as (evs & g' & ->).
    eexists _, g'. split; [done|]. cbn [fst snd].
    split; [by rewrite Eload|]. split; [apply ex_tpb_extract_sequences|].
    split; [rewrite write_midi_length; apply select_channels_length|].
    pose proof (select_channels_length (seqs e)) as Hlen.
    pose proof (Permutation_length (sort_by_key_perm id (select_channels (seqs e))))
      as Hperm.
    unfold write_midi. simpl.
    destruct (sort_by_key id (select_channels (seqs e))) as [|c cs];
      [simpl in Hperm; lia|].
    simpl. by eexists.
Qed.

Lemma chained_ticks_ascend ch lo notes :
  chained lo notes → ticks_ascend lo (voice_events ch notes).
Proof.
  revert lo. induction notes as [|sp notes IH]; intros lo; simpl; [done|].
  intros (Hlo & Hlt & Hc). split; [done|]. split; [lia|]. by apply IH.
Qed.

(** X15: the events the loop gives a voice are already in ascending tick
    order, so the sort in [write_midi] leaves them as they are, and the
    track written for the voice, read back by accumulating its delta times,
    shows its program change at tick 0 followed by every event at its own
    tick. *)
Theorem generated_track_reads_back (s : odict Z NoteSeq) (models : gmap Z Trans)
    (n : nat) (g : G) :
  ∃ st g',
    gen_loop (select_channels s) models (fallback_pools s) n g = Ok (st, g')
    ∧ ∀ ch progs,
        sort_by_key fst (default [] (events_by_ch st !! ch))
        = default [] (events_by_ch st !! ch)
        ∧ (abs_events 0 (make_track (events_by_ch st) progs ch)).*1
          = 0 :: (default [] (events_by_ch st !! ch)).*1.
Proof.
  destruct (gen_loop_voices_ok s models n g) as (st & g' & Hrun & Hok).
  exists st, g'. split; [done|]. intros ch progs.
  destruct (Hok ch) as (notes & Hev & _ & Hch & _).
  pose proof (chained_ticks_ascend ch 0 notes Hch) as Hasc.
  rewrite <- Hev in Hasc.
  assert (sort_by_key fst (default [] (events_by_ch st !! ch))
          = default [] (events_by_ch st !! ch)) as Hsort.
  { apply sort_by_key_ascending. by eapply ticks_ascend_sorted. }
  split; [done|].
  rewrite make_track_shape, Hsort. simpl. f_equal. by apply abs_delta_ticks.
Qed.
End WholeRun.

(** ** Reading a written file back *)

(** The voice a note message belongs to. *)
Definition note_channel (m : Msg) : option Z :=
  match m with
  | note_on c _ _ _ | note_off c _ _ _ => Some c
  | _ => None
  end.

(** What the scan keeps for one voice: its open notes and its sequence. *)
Definition voice_view (ch : Z) (s : Scan) : option (gmap Z Z) * option NoteSeq :=
  (active s !! ch, od_get ch (sc_seqs s)).

Lemma note_end_other_voice tpb abs_t c n s ch :
  c ≠ ch → voice_view ch (note_end tpb abs_t c n s) = voice_view ch s.
Proof.
  intros Hne. unfold note_end, voice_view.
  destruct (active s !! c) as [open|] eqn:Eo; [|done].
  destruct (open !! n) as [start|]; [|done]. simpl.
  unfold seqs_append. by rewrite lookup_insert_ne, od_get_set_ne.
Qed.

(** An event of another voice, or no note event at all, leaves the view. *)
Lemma scan_event_other_voice tpb s ev ch :
  note_channel ev.2 ≠ Some ch →
  voice_view ch (scan_event tpb s ev) = voice_view ch s.
Proof.
  destruct ev as [abs_t [c n vel t|c n vel t|tp t|c p t|t]]; simpl; try done.
  - intros Hne. assert (c ≠ ch) as Hc by congruence.
    destruct (0 <? vel).
    + unfold voice_view. simpl. by rewrite lookup_insert_ne.
    + destruct (vel =? 0); [by apply note_end_other_voice | done].
  - intros Hne. apply note_end_other_voice. congruence.
Qed.

Lemma note_end_view_congr tpb abs_t c n s1 s2 ch :
  voice_view ch s1 = voice_view ch s2 →
  voice_view ch (note_end tpb abs_t c n s1)
  = voice_view ch (note_end tpb abs_t c n s2).
Proof.
  intros Hv. destruct (decide (c = ch)) as [->|Hne].
  - unfold voice_view in *. injection Hv as Ha Hs. unfold note_end.
    rewrite <- Ha.
    destruct (active s1 !! ch) as [open|] eqn:E1;
      [|simpl; by rewrite E1, <- Ha, Hs].
    destruct (open !! n) as [start|]; [|simpl; by rewrite E1, <- Ha, Hs]. simpl.
    unfold seqs_append. by rewrite !lookup_insert_eq, !od_get_set_eq, Hs.
  - by rewrite !note_end_other_voice.
Qed.

(** The view after an event depends on the view before it only. *)
Lemma scan_event_view_congr tpb s1 s2 ev ch :
  voice_view ch s1 = voice_view ch s2 →
  voice_view ch (scan_event tpb s1 ev) = voice_view ch (scan_event tpb s2 ev).
Proof.
  intros Hv.
  destruct ev as [abs_t [c n vel t|c n vel t|tp t|c p t|t]]; simpl; try done.
  - destruct (0 <? vel).
    + unfold voice_view in *. injection Hv as Ha Hs. simpl.
      destruct (decide (c = ch)) as [->|Hne].
      * by rewrite !lookup_insert_eq, Ha, Hs.
      * by rewrite !lookup_insert_ne, Ha, Hs.
    + destruct (vel =? 0); [by apply note_end_view_congr | done].
  - by apply note_end_view_congr.
Qed.

Lemma scan_fold_view_congr tpb evs s1 s2 ch :
  voice_view ch s1 = voice_view ch s2 →
  voice_view ch (fold_left (scan_event tpb) evs s1)
  = voice_view ch (fold_left (scan_event tpb) evs s2).
Proof.
  revert s1 s2. induction evs as [|ev evs IH]; intros s1 s2 Hv; simpl; [done|].
  by apply IH, scan_event_view_congr.
Qed.

(** Only a voice's own note events matter for what is extracted for it. *)
Lemma scan_fold_view_filter tpb evs s ch :
  voice_view ch (fold_left (scan_event tpb) evs s)
  = voice_view ch
      (fold_left (scan_event tpb)
         (filter (λ ev, note_channel ev.2 = Some ch) evs) s).
Proof.
  revert s. induction evs as [|ev evs IH]; intros s; simpl; [done|].
  rewrite filter_cons. case_decide as Hrel; simpl.
  - apply IH.
  - rewrite IH. apply scan_fold_view_congr.
    by apply scan_event_other_voice.
Qed.

(** The (pitch, duration) pairs of a list of generated notes. *)
Definition span_notes (notes : list Span) : NoteSeq :=
  (λ sp, (sp_pitch sp, sp_end sp - sp_start sp)) <$> notes.

(** Scanning a voice's written track gives back its notes. *)
Lemma scan_own_track tpb ch notes t0 s0 :
  chained t0 notes →
  default [] (od_get ch (sc_seqs
    (fold_left (scan_event tpb)
       (abs_events t0 (delta_times t0 (voice_events ch notes))) s0)))
  = default [] (od_get ch (sc_seqs s0)) ++ span_notes notes.
Proof.
  revert t0 s0. induction notes as [|sp notes IH]; intros t0 s0.
  - intros _. simpl. by rewrite app_nil_r.
  - intros (Hlo & Hlt & Hc).
    change (voice_events ch (sp :: notes))
      with ((sp_start sp, note_on ch (sp_pitch sp) 96 0)
            :: (sp_end sp, note_off ch (sp_pitch sp) 0 0)
            :: voice_events ch notes).
    cbn [delta_times abs_events set_time msg_time fst snd fold_left].
    replace (t0 + Z.max 0 (sp_start sp - t0)) with (sp_start sp) by lia.
    replace (sp_start sp + Z.max 0 (sp_end sp - sp_start sp))
      with (sp_end sp) by lia.
    rewrite (IH _ _ Hc). cbn [scan_event]. cbn [Z.ltb Z.compare].
    unfold note_end. cbn [active]. rewrite lookup_insert_eq.
    rewrite lookup_insert_eq. cbn [sc_seqs].
    destruct (Z.leb_spec (sp_end sp - sp_start sp) 0) as [Hle|_]; [lia|].
    unfold seqs_append. rewrite od_get_set_eq. simpl.
    by rewrite <- app_assoc.
Qed.

Lemma abs_delta_channels ch notes t1 t2 :
  Forall (λ ev, note_channel ev.2 = Some ch)
    (abs_events t1 (delta_times t2 (voice_events ch notes))).
Proof.
  revert t1 t2. induction notes as [|sp notes IH]; intros t1 t2; [constructor|].
  change (voice_events ch (sp :: notes))
    with ((sp_start sp, note_on ch (sp_pitch sp) 96 0)
          :: (sp_end sp, note_off ch (sp_pitch sp) 0 0)
          :: voice_events ch notes).
  cbn [delta_times abs_events set_time msg_time fst snd].
  repeat constructor. apply IH.
Qed.

Lemma abs_delta_ascend t0 evs :
  ticks_ascend t0 evs → ticks_ascend t0 (abs_events t0 (delta_times t0 evs)).
Proof.
  revert t0. induction evs as [|[t m] evs IH]; intros t0; simpl; [done|].
  intros [Ht Hasc]. rewrite msg_time_set_time.
  replace (t0 + Z.max 0 (t - t0)) with t by lia. split; [done | by apply IH].
Qed.

Lemma filter_all {A} (P : A → Prop) `{∀ x, Decision (P x)} l :
  Forall P l → filter P l = l.
Proof.
  induction 1 as [|x l Hx Hl IH]; [done|].
  by rewrite filter_cons, decide_True, IH.
Qed.

Lemma filter_none {A} (P : A → Prop) `{∀ x, Decision (P x)} l :
  Forall (λ x, ¬ P x) l → filter P l = [].
Proof.
  induction 1 as [|x l Hx Hl IH]; [done|].
  by rewrite filter_cons, decide_False, IH.
Qed.

Lemma filter_concat {A} (P : A → Prop) `{∀ x, Decision (P x)} (ls : list (list A)) :
  filter P (concat ls) = concat (filter P <$> ls).
Proof.
  induction ls as [|l ls IH]; simpl; [done|]. by rewrite filter_app, IH.
Qed.

(** Sorting does not disturb a sub-list that is already in order. *)
Lemma insert_sorted_filter_out {A} (key : A → Z) (P : A → Prop)
    `{∀ x, Decision (P x)} x l :
  ¬ P x → filter P (insert_sorted (λ x y, key x <=? key y) x l) = filter P l.
Proof.
  intros Hx. induction l as [|y l IH]; simpl.
  - by rewrite filter_cons, decide_False.
  - destruct (key x <=? key y).
    + by rewrite filter_cons, decide_False.
    + by rewrite !filter_cons, IH.
Qed.

Lemma insert_sorted_filter_in {A} (key : A → Z) (P : A → Prop)
    `{∀ x, Decision (P x)} x l :
  P x → (∀ y, y ∈ l → P y → key x ≤ key y) →
  filter P (insert_sorted (λ x y, key x <=? key y) x l) = x :: filter P l.
Proof.
  intros Hx. induction l as [|y l IH]; intros Hl; simpl.
  - by rewrite filter_cons, decide_True.
  - destruct (Z.leb_spec (key x) (key y)) as [Hle|Hgt].
    + by rewrite filter_cons, decide_True.
    + rewrite !filter_cons, IH.
      * destruct (decide (P y)) as [Hy|Hy]; [|done].
        specialize (Hl y (list_elem_of_here _ _) Hy). lia.
      * intros z Hz. apply Hl. by right.
Qed.

Lemma sort_by_key_filter_sorted {A} (key : A → Z) (P : A → Prop)
    `{∀ x, Decision (P x)} l :
  StronglySorted (λ a b, key a ≤ key b) (filter P l) →
  filter P (sort_by_key key l) = filter P l.
Proof.
  unfold sort_by_key. induction l as [|x l IH]; simpl; [done|].
  rewrite filter_cons. case_decide as Hx.
  - intros [Hs Hall]%StronglySorted_inv.
    rewrite insert_sorted_filter_in; [by rewrite IH | done |].
    intros y Hy HPy. rewrite stable_sort_perm in Hy.
    rewrite Forall_forall in Hall. apply Hall.
    by apply list_elem_of_filter.
  - intros Hs. by rewrite insert_sorted_filter_out, IH.
Qed.

(** The voice's note events of a written track, with their absolute
    ticks. *)
Lemma filter_own_track events progs ch ch' notes :
  default [] (events !! ch') = voice_events ch' notes →
  chained 0 notes →
  filter (λ ev, note_channel ev.2 = Some ch)
    (abs_events 0 (make_track events progs ch'))
  = if decide (ch = ch')
    then abs_events 0 (delta_times 0 (default [] (events !! ch')))
    else [].
Proof.
  intros Hev Hch. rewrite make_track_shape, Hev.
  rewrite sort_by_key_ascending
    by (eapply ticks_ascend_sorted, chained_ticks_ascend, Hch).
  cbn [abs_events msg_time]. rewrite filter_cons, decide_False by done.
  change (0 + 0) with 0.
  pose proof (abs_delta_channels ch' notes 0 0) as Hall.
  case_decide as Hc.
  - subst ch'. by apply filter_all.
  - apply filter_none. eapply Forall_impl; [done|].
    intros ev Hev' Hrel. simpl in *. congruence.
Qed.

Lemma filter_tracks events progs ch chs :
  NoDup chs →
  (∀ ch', ∃ notes,
     default [] (events !! ch') = voice_events ch' notes ∧ chained 0 notes) →
  filter (λ ev, note_channel ev.2 = Some ch)
    (concat (map (abs_events 0) (map (make_track events progs) chs)))
  = if decide (ch ∈ chs)
    then abs_events 0 (delta_times 0 (default [] (events !! ch)))
    else [].
Proof.
  intros Hnd Hok. induction Hnd as [|c cs Hc Hnd IH]; cbn [map concat].
  - by destruct (decide (ch ∈ [])) as [Hin%elem_of_nil|].
  - destruct (Hok c) as (notes & Hev & Hch).
    rewrite filter_app, (filter_own_track _ _ _ _ _ Hev Hch), IH.
    destruct (decide (ch = c)) as [->|Hne].
    + rewrite (decide_False (P := c ∈ cs)) by done.
      rewrite decide_True by left. by rewrite app_nil_r.
    + simpl. destruct (decide (ch ∈ cs)) as [Hin|Hin].
      * rewrite decide_True; [done | by right].
      * rewrite decide_False; [done|]. rewrite elem_of_cons. tauto.
Qed.

Lemma filter_written events channels progs tpb tempo_ ch :
  filter (λ ev, note_channel ev.2 = Some ch)
    (concat (map (abs_events 0)
               (tracks (write_midi events channels progs tpb tempo_))))
  = filter (λ ev, note_channel ev.2 = Some ch)
      (concat (map (abs_events 0)
                 (map (make_track events progs) (sort_by_key id channels)))).
Proof.
  unfold write_midi. cbn [tracks].
  destruct (map (make_track events progs) (sort_by_key id channels))
    as [|tr0 rest]; [done|].
  cbn [map concat abs_events msg_time]. rewrite !filter_app.
  rewrite filter_cons, decide_False by done. done.
Qed.

Lemma select_channels_NoDup (s : odict Z NoteSeq) :
  NoDup (od_keys s) → NoDup (select_channels s).
Proof.
  intros Hnd. rewrite select_channels_ranked.
  destruct (truthy s); [|by apply (bool_decide_unpack _)].
  assert (NoDup (channel_activity s).*1) as Hall.
  { unfold channel_activity. rewrite sort_by_key_perm. by rewrite <- od_keys_fmap. }
  rewrite <- (take_drop (Z.to_nat MAX_CHANNELS) (channel_activity s)) in Hall.
  rewrite fmap_app in Hall. by apply NoDup_app in Hall as [? _].
Qed.

Section RoundTrip.
Context {F G : Type} {HF : PyFloat F} {HR : RandomSource F G}.

Lemma gen_loop_voices_selected (s : odict Z NoteSeq) (models : gmap Z Trans)
    (n : nat) (g : G) :
  ∃ st g',
    gen_loop (select_channels s) models (fallback_pools s) n g = Ok (st, g')
    ∧ ∀ ch, voice_ok st ch
            ∧ (ch ∉ select_channels s → events_by_ch st !! ch = None).
Proof.
  apply (gen_loop_invariant
           (λ _ st, ∀ ch, voice_ok st ch
                          ∧ (ch ∉ select_channels s → events_by_ch st !! ch = None))).
  - apply select_channels_nonempty.
  - intros ch. split; [apply voice_ok_init | done].
  - done.
  - intros k st g0 ch d note g' Hst Hon ch'. split.
    + eapply voice_ok_emit; [done | apply Hst].
    + intros Hnot. simpl. destruct Hon as (Hch & _).
      rewrite lookup_insert_ne; [by apply Hst|].
      intros ->. apply Hnot. by eapply list_elem_of_lookup_2.
Qed.

(** X16: writing the generated events and extracting the written file
    gives every voice exactly the notes the loop generated for it, as
    (pitch, end tick - start tick) pairs in order; a voice without generated
    notes does not appear. [seqs] lists no voice twice, as a dictionary
    does. *)
Theorem written_file_round_trip (s : odict Z NoteSeq) (models : gmap Z Trans)
    (n : nat) (g : G) (progs : gmap Z Z) (tpb tempo_ : Z) :
  NoDup (od_keys s) →
  ∃ st g',
    gen_loop (select_channels s) models (fallback_pools s) n g = Ok (st, g')
    ∧ ∀ ch, ∃ notes,
        default [] (events_by_ch st !! ch) = voice_events ch notes
        ∧ od_get ch
            (seqs (extract_sequences
                     [write_midi (events_by_ch st) (select_channels s)
                        progs tpb tempo_]))
          = if decide (notes = []) then None else Some (span_notes notes).
Proof.
  intros Hnd.
  destruct (gen_loop_voices_selected s models n g) as (st & g' & Hrun & Hst).
  exists st, g'. split; [done|]. intros ch.
  destruct (Hst ch) as [(notes & Hev & _ & Hch & _) Hsel].
  exists notes. split; [done|].
  set (mid := write_midi (events_by_ch st) (select_channels s) progs tpb tempo_).
  unfold extract_sequences. cbn [fold_left]. unfold extract_file. cbn [seqs].
  set (tpb' := if ticks_per_beat mid =? 0 then _ else _).
  set (s0 := {| active := ∅; sc_seqs := seqs extract_init;
                sc_programs := programs extract_init;
                sc_tempo := tempo extract_init |}).
  pose proof (scan_fold_view_filter tpb' (file_events mid) s0 ch) as Hview.
  assert (∀ ch', ∃ notes',
            default [] (events_by_ch st !! ch') = voice_events ch' notes'
            ∧ chained 0 notes') as Hok.
  { intros ch'. destruct (Hst ch') as [(notes' & Hev' & _ & Hch' & _) _]. eauto. }
  assert (NoDup (sort_by_key id (select_channels s))) as Hnd'.
  { rewrite sort_by_key_perm. by apply select_channels_NoDup. }
  pose proof (filter_tracks (events_by_ch st) progs ch _ Hnd' Hok) as Hown.
  rewrite <- filter_written with (tpb := tpb) (tempo_ := tempo_) in Hown.
  fold mid in Hown.
  assert (filter (λ ev, note_channel ev.2 = Some ch) (file_events mid)
          = filter (λ ev, note_channel ev.2 = Some ch)
              (concat (map (abs_events 0) (tracks mid)))) as Hsorted.
  { unfold file_events. apply sort_by_key_filter_sorted. rewrite Hown.
    case_decide; [|constructor].
    eapply ticks_ascend_sorted, abs_delta_ascend.
    rewrite Hev. by apply chained_ticks_ascend. }
  rewrite Hsorted, Hown in Hview.
  apply (f_equal snd) in Hview. unfold voice_view in Hview. cbn [snd] in Hview.
  rewrite Hview. case_decide as Hin.
  - pose proof (scan_own_track tpb' ch notes 0 s0 Hch) as Hscan.
    rewrite <- Hev in Hscan.
    change (default [] (od_get ch (sc_seqs s0))) with ([] : NoteSeq) in Hscan.
    destruct notes as [|sp notes'].
    + rewrite decide_True by done. by rewrite Hev.
    + rewrite decide_False by done.
      clear Hview.
      destruct (od_get ch (sc_seqs (fold_left _ (abs_events 0 _) s0))) as [arr|];
        simpl in Hscan; [by rewrite Hscan | done].
  - rewrite sort_by_key_perm in Hin. rewrite (Hsel Hin) in Hev.
    destruct notes as [|sp notes']; [|done].
    by rewrite decide_True by done.
Qed.
End RoundTrip.

(** ** Concrete instances of the further properties *)

(** The file written for [silent_folder] with one successful onset, read
    back: voice 0 holds one note of pitch 60 lasting one grid step. *)
Example extract_written_silent_run :
  match main silent_folder [0%Q; 0%Q] with
  | Ok (Some mid, _) => seqs (extract_sequences [mid])
  | _ => []
  end = [(0, [(60, 240)])].
Proof. vm_compute. reflexivity. Qed.

(** Every file of the corpus [demo_file] states 96 ticks per beat. *)
Lemma extract_durations_positive_witness :
  Forall (λ mid, ticks_per_beat mid = 0 ∨ 4 ≤ ticks_per_beat mid) [demo_file]
  ∧ durations_positive (seqs (extract_sequences [demo_file])).
Proof.
  assert (Forall (λ mid, ticks_per_beat mid = 0 ∨ 4 ≤ ticks_per_beat mid)
            [demo_file]) as Hm.
  { constructor; [right; simpl; lia | constructor]. }
  split; [exact Hm | exact (extract_durations_positive _ Hm)].
Defined.

(** The model of a corpus whose only voice plays 60 then 62. *)
Lemma models_pitches_from_corpus_witness :
  build_markov_models [(0, [(60, 1); (62, 1)])] !! 0
  = Some (build_trans [(60, 1); (62, 1)])
  ∧ od_get (Some 60) (build_trans [(60, 1); (62, 1)]) = Some [(62, 1)]
  ∧ ∃ arr, (0, arr) ∈ [(0, [(60, 1); (62, 1)])]
           ∧ 60 ∈ arr.*1 ∧ ∀ b, b ∈ od_keys [(62, 1)] → b ∈ arr.*1.
Proof.
  assert (build_markov_models [(0, [(60, 1); (62, 1)])] !! 0
          = Some (build_trans [(60, 1); (62, 1)])) as Hm by reflexivity.
  assert (od_get (Some 60) (build_trans [(60, 1); (62, 1)]) = Some [(62, 1)])
    as Hc by reflexivity.
  split; [exact Hm|]. split; [exact Hc|].
  exact (models_pitches_from_corpus _ _ _ _ _ Hm Hc).
Defined.

(** One note pair of voice 0, from tick 240 to tick 480. *)
Lemma delta_times_round_trip_witness :
  ticks_ascend 0 [(240, note_on 0 60 96 0); (480, note_off 0 60 0 0)]
  ∧ (abs_events 0
       (delta_times 0 [(240, note_on 0 60 96 0); (480, note_off 0 60 0 0)])).*1
    = [240; 480].
Proof.
  assert (ticks_ascend 0 [(240, note_on 0 60 96 0); (480, note_off 0 60 0 0)])
    as Hasc by (simpl; lia).
  split; [exact Hasc|].
  exact (proj1 (delta_times_round_trip 0 _ Hasc)).
Defined.

(** Three steps of a run without corpus, written and read back. *)
Lemma written_file_round_trip_witness :
  NoDup (od_keys ([] : odict Z NoteSeq))
  ∧ ∃ st g',
      gen_loop (select_channels []) ∅ (fallback_pools []) 3
        [0%Q; 0.99%Q; 0.7%Q; 0.2%Q; 0.5%Q] = Ok (st, g')
      ∧ ∃ notes,
          default [] (events_by_ch st !! 2) = voice_events 2 notes
          ∧ od_get 2
              (seqs (extract_sequences
                       [write_midi (events_by_ch st) (select_channels [])
                          ∅ 480 500000]))
            = if decide (notes = []) then None else Some (span_notes notes).
Proof.
  assert (NoDup (od_keys ([] : odict Z NoteSeq))) as Hnd by apply NoDup_nil_2.
  split; [exact Hnd|].
  destruct (written_file_round_trip [] ∅ 3 [0%Q; 0.99%Q; 0.7%Q; 0.2%Q; 0.5%Q]
              ∅ 480 500000 Hnd) as (st & g' & Hrun & Hall).
  exists st, g'. split; [exact Hrun | exact (Hall 2)].
Defined.

(** ** More on the scan *)

Lemma note_end_meta tpb abs_t ch n s :
  sc_tempo (note_end tpb abs_t ch n s) = sc_tempo s
  ∧ sc_programs (note_end tpb abs_t ch n s) = sc_programs s.
Proof.
  unfold note_end. destruct (active s !! ch) as [open|]; [|done].
  by destruct (open !! n).
Qed.

(** The tempo a tempo-change event sets, and the program a program-change
    event sets for voice [ch]. *)
Definition tempo_of (ev : Z * Msg) : option Z :=
  match ev.2 with
  | set_tempo t _ => Some t
  | _ => None
  end.

Definition program_of (ch : Z) (ev : Z * Msg) : option Z :=
  match ev.2 with
  | program_change c p _ => if decide (c = ch) then Some p else None
  | _ => None
  end.

(** All events of the corpus, in the order the scan meets them. *)
Definition corpus_events (mids : list MidiFile) : list (Z * Msg) :=
  mids ≫= file_events.

Lemma scan_event_meta tpb s ev ch :
  sc_tempo (scan_event tpb s ev) = default (sc_tempo s) (tempo_of ev)
  ∧ sc_programs (scan_event tpb s ev) !! ch
    = match program_of ch ev with
      | Some p => Some p
      | None => sc_programs s !! ch
      end.
Proof.
  destruct ev as [abs_t [c n vel t|c n vel t|tp t|c p t|t]];
    unfold tempo_of, program_of; simpl; try done.
  - destruct (0 <? vel); [done|].
    destruct (vel =? 0); [|done]. by destruct (note_end_meta tpb abs_t c n s) as [-> ->].
  - by destruct (note_end_meta tpb abs_t c n s) as [-> ->].
  - split; [done|]. rewrite lookup_insert. by destruct (decide (c = ch)).
Qed.

Lemma scan_fold_meta tpb evs s ch :
  sc_tempo (fold_left (scan_event tpb) evs s)
  = default (sc_tempo s) (last (omap tempo_of evs))
  ∧ sc_programs (fold_left (scan_event tpb) evs s) !! ch
    = match last (omap (program_of ch) evs) with
      | Some p => Some p
      | None => sc_programs s !! ch
      end.
Proof.
  induction evs as [|ev evs [IHt IHp]] using rev_ind; [done|].
  rewrite fold_left_app, !omap_app, !last_app. simpl.
  destruct (scan_event_meta tpb (fold_left (scan_event tpb) evs s) ev ch)
    as [-> ->].
  rewrite IHt, IHp. split.
  - by destruct (tempo_of ev).
  - by destruct (program_of ch ev).
Qed.

Lemma abs_events_running_ticks t0 tr i ev :
  abs_events t0 tr !! i = Some ev →
  ev.1 = t0 + foldr Z.add 0 (msg_time <$> take (S i) tr).
Proof.
  revert t0 i. induction tr as [|msg tr IH]; intros t0 i; [done|].
  destruct i as [|i].
  - intros [= <-]. simpl. lia.
  - intros H. simpl in H. rewrite (IH _ _ H).
    change (take (S (S i)) (msg :: tr)) with (msg :: take (S i) tr).
    rewrite fmap_cons. cbn [foldr]. lia.
Qed.

(** X17: extraction returns the tempo of the last tempo-change event of
    the corpus (500000 when there is none) and, for every voice, the program
    of its last program-change event (none when there is none), the events
    taken file by file and, within a file, in ascending tick order.  The
    events of a file are its tracks' messages, each at the tick that is the
    sum of the delta times of its track up to and including its own, merged
    by a stable sort on the tick: a permutation of the tracks' events, in
    ascending tick order, events on the same tick in the order of the tracks
    and, within a track, of the messages. *)
Theorem extract_tempo_and_programs mids :
  tempo (extract_sequences mids)
  = default 500000 (last (omap tempo_of (corpus_events mids)))
  ∧ (∀ ch, programs (extract_sequences mids) !! ch
           = last (omap (program_of ch) (corpus_events mids)))
  ∧ corpus_events mids = concat (file_events <$> mids)
  ∧ (∀ mid, file_events mid ≡ₚ concat (abs_events 0 <$> tracks mid))
  ∧ (∀ mid, StronglySorted (λ a b, a.1 ≤ b.1) (file_events mid))
  ∧ (∀ mid t, filter (λ ev, ev.1 = t) (file_events mid)
              = filter (λ ev, ev.1 = t) (concat (abs_events 0 <$> tracks mid)))
  ∧ (∀ t0 tr, (abs_events t0 tr).*2 = tr)
  ∧ (∀ t0 tr i ev, abs_events t0 tr !! i = Some ev →
       ev.1 = t0 + foldr Z.add 0 (msg_time <$> take (S i) tr)).
Proof.
  assert (tempo (extract_sequences mids)
          = default 500000 (last (omap tempo_of (corpus_events mids)))
          ∧ ∀ ch, programs (extract_sequences mids) !! ch
                  = last (omap (program_of ch) (corpus_events mids))) as [Ht Hp].
  { induction mids as [|mid mids [IHt IHp]] using rev_ind; [done|].
    rewrite extract_sequences_snoc. unfold corpus_events.
    rewrite bind_app. simpl. rewrite app_nil_r.
    fold (corpus_events mids). unfold extract_file. simpl.
    set (tpb := if ticks_per_beat mid =? 0 then _ else _).
    set (s0 := {| active := ∅; sc_seqs := seqs (extract_sequences mids);
                  sc_programs := programs (extract_sequences mids);
                  sc_tempo := tempo (extract_sequences mids) |}).
    split.
    - destruct (scan_fold_meta tpb (file_events mid) s0 0) as [-> _].
      rewrite omap_app, last_app. simpl. rewrite IHt.
      by destruct (last (omap tempo_of (file_events mid))).
    - intros ch. destruct (scan_fold_meta tpb (file_events mid) s0 ch) as [_ ->].
      rewrite omap_app, last_app. simpl. rewrite IHp.
      by destruct (last (omap (program_of ch) (file_events mid))). }
  split; [exact Ht|]. split; [exact Hp|].
  split; [|split; [|split; [|split; [|split]]]].
  - unfold corpus_events. clear Ht Hp. induction mids as [|mid mids IH]; [done|].
    rewrite fmap_cons. cbn [concat]. rewrite <- IH. reflexivity.
  - intros mid. apply (sort_by_key_perm fst).
  - intros mid. apply (sort_by_key_sorted fst).
  - intros mid t. apply (sort_by_key_stable fst).
  - apply abs_events_messages.
  - apply abs_events_running_ticks.
Qed.

(** X18: a release closes a note at most once: a second note-off for the
    same voice and pitch, with nothing in between, changes nothing. *)
Theorem second_note_off_ignored tpb s t1 t2 ch n v1 v2 d1 d2 :
  scan_event tpb (scan_event tpb s (t1, note_off ch n v1 d1))
    (t2, note_off ch n v2 d2)
  = scan_event tpb s (t1, note_off ch n v1 d1).
Proof.
  simpl. unfold note_end at 1.
  destruct (active s !! ch) as [open|] eqn:Eo.
  - destruct (open !! n) as [start|] eqn:En.
    + unfold note_end. rewrite Eo, En. simpl.
      by rewrite lookup_insert_eq, lookup_delete_eq.
    + unfold note_end. rewrite Eo, En. simpl. by rewrite Eo, En.
  - unfold note_end. rewrite Eo. simpl. by rewrite Eo.
Qed.

(** X19: a note-on for a pitch that is already sounding in its voice
    replaces the recorded start: the earlier note-on leaves no trace, and the
    next release records one note, measured from the later start. *)
Theorem repeated_note_on_overwrites tpb s t1 t2 t3 ch n v1 v2 v3 d1 d2 d3 :
  0 < v1 → 0 < v2 →
  scan_event tpb (scan_event tpb s (t1, note_on ch n v1 d1))
    (t2, note_on ch n v2 d2)
  = scan_event tpb s (t2, note_on ch n v2 d2)
  ∧ sc_seqs
      (scan_event tpb
         (scan_event tpb (scan_event tpb s (t1, note_on ch n v1 d1))
            (t2, note_on ch n v2 d2))
         (t3, note_off ch n v3 d3))
    = seqs_append ch (n, if t3 - t2 <=? 0 then tpb `div` 4 else t3 - t2)
        (sc_seqs s).
Proof.
  intros Hv1 Hv2.
  assert (scan_event tpb (scan_event tpb s (t1, note_on ch n v1 d1))
            (t2, note_on ch n v2 d2)
          = scan_event tpb s (t2, note_on ch n v2 d2)) as Heq.
  { simpl. rewrite (proj2 (Z.ltb_lt 0 v1) Hv1), (proj2 (Z.ltb_lt 0 v2) Hv2).
    simpl. rewrite lookup_insert_eq. simpl.
    by rewrite !insert_insert_eq. }
  split; [done|]. rewrite Heq. simpl.
  rewrite (proj2 (Z.ltb_lt 0 v2) Hv2), note_end_records. simpl.
  rewrite lookup_insert_eq. simpl. by rewrite lookup_insert_eq.
Qed.

(** A note-on at tick 10, another at tick 30, a release at tick 50. *)
Lemma repeated_note_on_overwrites_witness :
  0 < 64 ∧ 0 < 80
  ∧ sc_seqs
      (scan_event 480
         (scan_event 480
            (scan_event 480
               {| active := ∅; sc_seqs := []; sc_programs := ∅; sc_tempo := 500000 |}
               (10, note_on 0 60 64 0))
            (30, note_on 0 60 80 0))
         (50, note_off 0 60 0 0))
    = seqs_append 0 (60, if 50 - 30 <=? 0 then 480 `div` 4 else 50 - 30) [].
Proof.
  assert (0 < 64) as H1 by lia. assert (0 < 80) as H2 by lia.
  split; [exact H1|]. split; [exact H2|].
  exact (proj2 (repeated_note_on_overwrites 480 _ 10 30 50 0 60 64 80 0 0 0 0
                  H1 H2)).
Defined.
